(** * mk.py: scrape, index and ask -- a shallow embedding

    The service in [src/fg/mk.py] validates a request, drives a web crawler,
    cleans the crawled Markdown with two regular expressions, writes the
    combined document to a temporary file, hands it to a hosted assistant API
    and later rewrites the citation annotations of an answer.

    Python [str] values are modelled as lists of characters, the external
    collaborators (crawler, file system, hosted API) as an environment that
    answers each call from the history of the calls made so far, and the
    Python code as state-and-exception passing over that history. *)

From Stdlib Require Import String Ascii Decimal DecimalString.
From Stdlib Require DecimalNat.
From Stdlib Require Import List Arith Lia Bool.
Import ListNotations.

(** ** Strings *)

Definition str := list ascii.

(** A literal of the source. *)
Definition lit (s : string) : str := list_ascii_of_string s.
Arguments lit s%_string.

Definition LF : ascii := ascii_of_nat 10.

(** [str(n)] for a non-negative [int]. *)
Definition str_of_nat (n : nat) : str :=
  lit (NilZero.string_of_uint (Nat.to_uint n)).

(** [sep.join(parts)] *)
Fixpoint join (sep : str) (parts : list str) : str :=
  match parts with
  | [] => []
  | [p] => p
  | p :: rest => p ++ sep ++ join sep rest
  end.

(** [s.startswith(p)] *)
Fixpoint starts_with (p s : str) : bool :=
  match p, s with
  | [], _ => true
  | _ :: _, [] => false
  | a :: p', c :: s' => Ascii.eqb a c && starts_with p' s'
  end.

(** [s.find(sub)], with [None] for Python's [-1]. *)
Fixpoint find (sub s : str) : option nat :=
  if starts_with sub s then Some 0
  else match s with
       | [] => None
       | _ :: s' => option_map S (find sub s')
       end.

(** The scan of [str.replace] for a non-empty [old]: [skip] characters of
    the occurrence found last are still to be passed over. *)
Fixpoint replace_from (old new : str) (skip : nat) (s : str) : str :=
  match s with
  | [] => []
  | c :: s' =>
      match skip with
      | S k => replace_from old new k s'
      | O =>
          if starts_with old s
          then new ++ replace_from old new (length old - 1) s'
          else c :: replace_from old new 0 s'
      end
  end.

(** [s.replace(old, new)]: every non-overlapping occurrence, left to right;
    an empty [old] matches before every character and at the end. *)
Definition str_replace (old new s : str) : str :=
  match old with
  | [] => new ++ flat_map (fun c => c :: new) s
  | _ :: _ => replace_from old new 0 s
  end.

(** ** Regular expressions

    The fragment of [re] syntax the two patterns of [scrape_urls] use: literal
    characters (an escaped [\*] or [\.] is the literal character) and the lazy
    [.*?], whose dot matches every character under [re.DOTALL]. *)

Inductive atom : Type :=
| Lit (c : ascii)
| LazyDotStar.

Definition regex := list atom.

Definition lits (s : string) : regex := map Lit (lit s).
Arguments lits s%_string.

(** Backtracking match of [p] at the start of the text: the length of the
    match the engine reports, if any.  A lazy star first tries the rest of
    the pattern and consumes one more character only when that fails. *)
Fixpoint match_here (p : regex) : str -> option nat :=
  match p with
  | [] => fun _ => Some 0
  | Lit a :: r =>
      fun s =>
        match s with
        | [] => None
        | c :: s' =>
            if Ascii.eqb a c then option_map S (match_here r s') else None
        end
  | LazyDotStar :: r =>
      fix lazy (s : str) : option nat :=
        match match_here r s with
        | Some n => Some n
        | None =>
            match s with
            | [] => None
            | _ :: s' => option_map S (lazy s')
            end
        end
  end.

(** [re.search(p, s)]: start and length of the leftmost match. *)
Fixpoint re_search (p : regex) (s : str) : option (nat * nat) :=
  match match_here p s with
  | Some n => Some (0, n)
  | None =>
      match s with
      | [] => None
      | _ :: s' =>
          match re_search p s' with
          | Some (i, n) => Some (S i, n)
          | None => None
          end
      end
  end.

(** The scan of [re.sub]: non-overlapping matches left to right; an empty
    match is replaced too and the scan moves on by one character. *)
Fixpoint sub_from (p : regex) (repl : str) (skip : nat) (s : str) : str :=
  match s with
  | [] =>
      match match_here p [] with
      | Some _ => repl
      | None => []
      end
  | c :: s' =>
      match skip with
      | S k => sub_from p repl k s'
      | O =>
          match match_here p s with
          | Some (S n) => repl ++ sub_from p repl n s'
          | Some O => repl ++ c :: sub_from p repl 0 s'
          | None => c :: sub_from p repl 0 s'
          end
      end
  end.

(** [re.sub(p, repl, s, flags=re.DOTALL)] *)
Definition re_sub (p : regex) (repl s : str) : str := sub_from p repl 0 s.

(** ** Exceptions

    [HTTPException] is the exception of the web framework; [Exception msg]
    stands for any other exception whose [str()] is [msg]. *)

Inductive exn : Type :=
| HTTPException (status_code : nat) (detail : str)
| Exception (msg : str).

(** [str(e)].  The framework's [HTTPException.__str__] formats the status
    code and the detail as ["{status_code}: {detail}"]. *)
Definition exn_str (e : exn) : str :=
  match e with
  | HTTPException status_code detail =>
      str_of_nat status_code ++ lit ": " ++ detail
  | Exception msg => msg
  end.

(** ** Request bodies and their validation *)

#[warnings="-register-all"]
Inductive json : Type :=
| JNull
| JBool (b : bool)
| JNumber (n : nat)
| JString (s : str)
| JArray (items : list json)
| JObject (members : list (str * json)).

(** [class URLRequest(BaseModel)]: the field [urls] after validation. *)
Record URLRequest : Type := { urls : list str }.

(** [class QuestionRequest(BaseModel)] *)
Record QuestionRequest : Type := { question : str }.

(** The validator [ensure_list] on a value of type [Union[List[str], str]]. *)
Definition ensure_list (v : list str + str) : list str :=
  match v with
  | inr s => [s]
  | inl l => l
  end.

(** Validation against [List[str]]: every item has to be a string. *)
Fixpoint as_str_list (items : list json) : option (list str) :=
  match items with
  | [] => Some []
  | JString s :: rest => option_map (cons s) (as_str_list rest)
  | _ :: _ => None
  end.

(** Validation against [Union[List[str], str]]. *)
Definition as_urls (v : json) : option (list str + str) :=
  match v with
  | JString s => Some (inr s)
  | JArray items => option_map inl (as_str_list items)
  | _ => None
  end.

Definition str_eqb (a b : str) : bool :=
  (length a =? length b) && starts_with a b.

(** The member of an object as the JSON decoder keeps it: the last binding
    of a repeated key wins. *)
Fixpoint member (key : str) (members : list (str * json)) : option json :=
  match members with
  | [] => None
  | (k, v) :: rest =>
      match member key rest with
      | Some v' => Some v'
      | None => if str_eqb key k then Some v else None
      end
  end.

(** What the framework does with the body of a [/scrape_and_upsert] request
    before the route function runs: type validation of [urls], then the
    [field_validator].  [None] is a rejected request. *)
Definition URLRequest_validate (body : json) : option URLRequest :=
  match body with
  | JObject members =>
      match member (lit "urls") members with
      | Some v => option_map (fun u => {| urls := ensure_list u |}) (as_urls v)
      | None => None
      end
  | _ => None
  end.

(** ** The objects of the external services *)

Record crawl_result : Type := { markdown : str }.
Record assistant_obj : Type := { assistant_id : str }.
Record vector_store_obj : Type := { vector_store_id : str }.
(** The resources of a thread; [file_search] is [None] where the attribute
    is. *)
Record tool_resources_obj : Type := { file_search : option (list str) }.

(** A thread; [tool_resources] is [None] where the attribute is. *)
Record thread_obj : Type :=
  { thread_id : str; tool_resources : option tool_resources_obj }.
Record run_obj : Type := { run_id : str }.
Record file_obj : Type := { filename : str }.
Record file_citation_obj : Type := { file_id : str }.

(** An annotation of an answer: the text it stands for in the answer and,
    for a file citation, the cited file.  [file_citation] is [None] where
    [getattr(annotation, "file_citation", None)] is. *)
Record annotation_obj : Type :=
  { text : str; file_citation : option file_citation_obj }.

Record text_obj : Type :=
  { value : str; annotations : list annotation_obj }.

Inductive content_block : Type :=
| TextContentBlock (t : text_obj)
| ImageFileContentBlock.

Record message_obj : Type := { content : list content_block }.

(** ** Calls to the outside

    Every call the code makes to the crawler, the file system and the hosted
    API, and the deleting calls of that API, which the code never makes. *)

Inductive call : Type :=
| WebCrawler_init
| crawler_warmup
| crawler_run (url : str)
| NamedTemporaryFile (mode : str) (delete : bool) (suffix : str)
| temp_file_write (name : str) (data : str)
| open_rb (file_path : str)
| assistants_create (name description instructions model : str)
    (tools : list str)
| vector_stores_create (name : str)
| file_batches_upload_and_poll (vector_store : str) (files : list str)
| assistants_update (assistant : str) (vector_store_ids : list str)
| assistants_retrieve (assistant : str)
| vector_stores_retrieve (vector_store : str)
| threads_create (role content : str)
| runs_create_and_poll (thread assistant : str)
| messages_list (thread run : str)
| files_retrieve (file : str)
| assistants_delete (assistant : str)
| vector_stores_delete (vector_store : str)
| files_delete (file : str).

(** What a call returns when it does not raise. *)
Definition reply_of (c : call) : Type :=
  match c with
  | WebCrawler_init | crawler_warmup => unit
  | crawler_run _ => crawl_result
  | NamedTemporaryFile _ _ _ => str
  | temp_file_write _ _ => unit
  | open_rb _ => unit
  | assistants_create _ _ _ _ _ => assistant_obj
  | vector_stores_create _ => vector_store_obj
  | file_batches_upload_and_poll _ _ => unit
  | assistants_update _ _ => assistant_obj
  | assistants_retrieve _ => assistant_obj
  | vector_stores_retrieve _ => vector_store_obj
  | threads_create _ _ => thread_obj
  | runs_create_and_poll _ _ => run_obj
  | messages_list _ _ => list message_obj
  | files_retrieve _ => file_obj
  | assistants_delete _ | vector_stores_delete _ | files_delete _ => unit
  end.

(** The outside world: given the calls made so far, a call raises or
    returns. *)
Definition world : Type := list call -> forall c : call, exn + reply_of c.

Definition is_delete (c : call) : bool :=
  match c with
  | assistants_delete _ | vector_stores_delete _ | files_delete _ => true
  | _ => false
  end.

(** The calls that create or change something on the hosted API. *)
Definition is_indexing (c : call) : bool :=
  match c with
  | assistants_create _ _ _ _ _ | vector_stores_create _
  | file_batches_upload_and_poll _ _ | assistants_update _ _ => true
  | _ => false
  end.

(** The calls that produce the document file. *)
Definition is_document (c : call) : bool :=
  match c with
  | NamedTemporaryFile _ _ _ | temp_file_write _ _ => true
  | _ => false
  end.

(** ** Computations: the history of calls is threaded, an exception ends
    the computation where it is raised. *)

Definition M (A : Type) : Type := list call -> (exn + A) * list call.

Definition ret {A} (a : A) : M A := fun h => (inr a, h).

Definition raise {A} (e : exn) : M A := fun h => (inl e, h).

Definition bind {A B} (m : M A) (k : A -> M B) : M B :=
  fun h =>
    match m h with
    | (inr a, h') => k a h'
    | (inl e, h') => (inl e, h')
    end.

(** [try: body except Exception as e: handler(e)] *)
Definition try_except {A} (body : M A) (handler : exn -> M A) : M A :=
  fun h =>
    match body h with
    | (inr a, h') => (inr a, h')
    | (inl e, h') => handler e h'
    end.

(** One call to the outside. *)
Definition ext (w : world) (c : call) : M (reply_of c) :=
  fun h => (w h c, h ++ [c]).

Notation "x <- m ;; k" := (bind m (fun x => k))
  (at level 61, m at next level, right associativity).

(** [xs[0]] *)
Definition first_item {A} (xs : list A) : M A :=
  match xs with
  | x :: _ => ret x
  | [] => raise (Exception (lit "list index out of range"))
  end.

(** [thread.tool_resources.file_search], the value that is printed: reading
    [file_search] from a [tool_resources] that is [None] raises. *)
Definition file_search_of (thread : thread_obj) : M (option (list str)) :=
  match tool_resources thread with
  | Some resources => ret (file_search resources)
  | None =>
      raise (Exception
        (lit "'NoneType' object has no attribute 'file_search'"))
  end.

(** [block.text] *)
Definition text_of (block : content_block) : M text_obj :=
  match block with
  | TextContentBlock t => ret t
  | ImageFileContentBlock =>
      raise (Exception
        (lit "'ImageFileContentBlock' object has no attribute 'text'"))
  end.

(** ** The service *)

(** [list_to_string(my_list, separator)] for a list of strings. *)
Definition list_to_string (my_list : list str) (separator : str) : str :=
  join separator my_list.

(** The two patterns of [scrape_urls], in the order of the list. *)
Definition subscribe_pattern : regex :=
  lits "##  Subscribe to our emails" ++ [LazyDotStar]
    ++ lits "* Opens in a new window.".

Definition banner_pattern : regex :=
  lits "Skip to content" ++ [LazyDotStar]
    ++ lits "View cart Check out  Continue shopping".

Definition patterns : list regex := [subscribe_pattern; banner_pattern].

(** The inner loop of [scrape_urls]: each pattern in turn is substituted
    by the empty string in what the patterns before it have left. *)
Definition clean (content : str) : str :=
  fold_left (fun content pattern => re_sub pattern [] content)
    patterns content.

(** The separator of the combined document. *)
Definition separator : str := [LF; LF] ++ lit "---" ++ [LF; LF].

Definition description : str :=
  lit "
    You are the question answer bot who answers the user
    question with precise response by using only the vectorstore's content
    ".

Definition instructions : str :=
  lit "
    Answer only from the stored content, in case if you couldn't
    find the answer say that you couldn't found the answer
    ".

(** [f"[{index}]"] *)
Definition marker (index : nat) : str :=
  lit "[" ++ str_of_nat index ++ lit "]".

(** The body of [/scrape_and_upsert] on success. *)
Record upsert_response : Type :=
  { message : str; response_assistant_id : str;
    response_vector_store_id : str }.

(** The body of [/ask_question] on success. *)
Record ask_response : Type := { answer : str }.

Section Service.

Variable w : world.

(** The loop of [scrape_urls] over the URLs that are left. *)
Fixpoint scrape_loop (urls : list str) (scraped_contents : list str)
  : M (list str) :=
  match urls with
  | [] => ret scraped_contents
  | url :: rest =>
      content <-
        try_except
          (result <- ext w (crawler_run url) ;;
           ret (clean (markdown result)))
          (fun e =>
             raise (HTTPException 500
                      (lit "Failed to scrape " ++ url ++ lit ": "
                         ++ exn_str e))) ;;
      scrape_loop rest (scraped_contents ++ [content])
  end.

Definition scrape_urls (urls : list str) : M str :=
  _ <- ext w WebCrawler_init ;;
  _ <- ext w crawler_warmup ;;
  scraped_contents <- scrape_loop urls [] ;;
  let combined_content := join separator scraped_contents in
  temp_file_path <- ext w (NamedTemporaryFile (lit "w") false (lit ".md")) ;;
  _ <- ext w (temp_file_write temp_file_path combined_content) ;;
  ret temp_file_path.

Definition create_assistant_and_vectorstore (file_path : str)
  : M (assistant_obj * vector_store_obj) :=
  assistant <-
    ext w (assistants_create (lit "Question-Answer Assistant") description
             instructions (lit "gpt-4o-mini") [lit "file_search"]) ;;
  vector_store <- ext w (vector_stores_create (lit "Scraped Content")) ;;
  _ <- ext w (open_rb file_path) ;;
  _ <- (ext w (file_batches_upload_and_poll (vector_store_id vector_store)
                 [file_path]) : M unit) ;;
  assistant <-
    (ext w (assistants_update (assistant_id assistant)
              [vector_store_id vector_store]) : M assistant_obj) ;;
  ret (assistant, vector_store).

(** The loop of [execute_rag_pipeline] over the annotations that are left,
    from position [index] of the enumeration. *)
Fixpoint annotate (index : nat) (todo : list annotation_obj)
    (value : str) (citations : list str) : M (str * list str) :=
  match todo with
  | [] => ret (value, citations)
  | annotation :: rest =>
      let value := str_replace (text annotation) (marker index) value in
      match file_citation annotation with
      | Some citation =>
          cited_file <- ext w (files_retrieve (file_id citation)) ;;
          annotate (S index) rest value
            (citations ++ [marker index ++ lit " " ++ filename cited_file])
      | None => annotate (S index) rest value citations
      end
  end.

Definition execute_rag_pipeline (question : str) (assistant : assistant_obj)
    (vector_store : vector_store_obj) : M str :=
  thread <- ext w (threads_create (lit "user") question) ;;
  _ <- file_search_of thread ;;
  run <- ext w (runs_create_and_poll (thread_id thread)
                (assistant_id assistant)) ;;
  messages <- ext w (messages_list (thread_id thread) (run_id run)) ;;
  first_message <- first_item messages ;;
  first_block <- first_item (content first_message) ;;
  message_content <- text_of first_block ;;
  rewritten <- annotate 0 (annotations message_content)
                 (value message_content) [] ;;
  let '(value, citations) := rewritten in
  ret (value ++ [LF; LF] ++ join [LF] citations).

(** [POST /scrape_and_upsert] *)
Definition scrape_and_upsert (request : URLRequest) : M upsert_response :=
  try_except
    (let urls := urls request in
     md_file_path <- scrape_urls urls ;;
     created <- create_assistant_and_vectorstore md_file_path ;;
     let '(assistant, vector_store) := created in
     ret {| message :=
              lit "Successfully scraped content from "
                ++ str_of_nat (length urls)
                ++ lit " URLs and created assistant and vector store.";
            response_assistant_id := assistant_id assistant;
            response_vector_store_id := vector_store_id vector_store |})
    (fun e => raise (HTTPException 500 (exn_str e))).

(** [POST /ask_question] *)
Definition ask_question (request : QuestionRequest)
    (assistant_id vector_store_id : str) : M ask_response :=
  try_except
    (assistant <- ext w (assistants_retrieve assistant_id) ;;
     vector_store <- ext w (vector_stores_retrieve vector_store_id) ;;
     answer <- execute_rag_pipeline (question request) assistant
                 vector_store ;;
     ret {| answer := answer |})
    (fun e => raise (HTTPException 500 (exn_str e))).

End Service.

(** ** A stand-in for the outside world

    Used to run the service on concrete inputs: [web] is what the crawler
    gets for a URL, [down] says which call fails (given the calls before
    it), [inbox] is the message list of every run.  Identifiers and file
    names are made from the number of calls made so far. *)

Definition unavailable : exn := Exception (lit "service unavailable").

Definition stand_in (web : str -> exn + str) (down : list call -> call -> bool)
    (inbox : list message_obj) : world :=
  fun history c =>
    if down history c then inl unavailable
    else
      let n := str_of_nat (length history) in
      match c as c0 return exn + reply_of c0 with
      | WebCrawler_init => inr tt
      | crawler_warmup => inr tt
      | crawler_run url =>
          match web url with
          | inl e => inl e
          | inr text => inr {| markdown := text |}
          end
      | NamedTemporaryFile _ _ suffix => inr (lit "/tmp/tmp" ++ n ++ suffix)
      | temp_file_write _ _ => inr tt
      | open_rb _ => inr tt
      | assistants_create _ _ _ _ _ =>
          inr {| assistant_id := lit "asst_" ++ n |}
      | vector_stores_create _ => inr {| vector_store_id := lit "vs_" ++ n |}
      | file_batches_upload_and_poll _ _ => inr tt
      | assistants_update assistant _ => inr {| assistant_id := assistant |}
      | assistants_retrieve assistant => inr {| assistant_id := assistant |}
      | vector_stores_retrieve vector_store =>
          inr {| vector_store_id := vector_store |}
      | threads_create _ _ =>
          inr {| thread_id := lit "thread_" ++ n;
                 tool_resources := Some {| file_search := None |} |}
      | runs_create_and_poll _ _ => inr {| run_id := lit "run_" ++ n |}
      | messages_list _ _ => inr inbox
      | files_retrieve file => inr {| filename := file ++ lit ".md" |}
      | assistants_delete _ => inr tt
      | vector_stores_delete _ => inr tt
      | files_delete _ => inr tt
      end.

Definition never_down : list call -> call -> bool := fun _ _ => false.

(** A crawler that finds a page of one fixed shape for every URL but the
    one that starts with ["bad"]. *)
Definition demo_web (url : str) : exn + str :=
  if starts_with (lit "bad") url then inl (Exception (lit "timeout"))
  else inr (lit "page of " ++ url).

(** * Properties *)

(** ** Strings *)

Lemma starts_with_app (p s : str) : starts_with p (p ++ s) = true.
Proof.
  induction p as [|a p IH]; simpl; [reflexivity|].
  now rewrite Ascii.eqb_refl, IH.
Qed.

Lemma starts_with_split (p s : str) :
  starts_with p s = true -> exists rest, s = p ++ rest.
Proof.
  revert s; induction p as [|a p IH]; intros s H.
  - now exists s.
  - destruct s as [|c s]; simpl in H; [discriminate|].
    apply andb_true_iff in H as [Hc Hs].
    apply Ascii.eqb_eq in Hc; subst c.
    destruct (IH _ Hs) as [rest ->].
    now exists rest.
Qed.

Lemma find_nil (s : str) : find [] s = Some 0.
Proof. now destruct s. Qed.

Lemma find_cons_miss (sub : str) (c : ascii) (s : str) :
  starts_with sub (c :: s) = false ->
  find sub (c :: s) = option_map S (find sub s).
Proof. intros H; simpl find; now rewrite H. Qed.

Lemma find_hit (sub s : str) :
  starts_with sub s = true -> find sub s = Some 0.
Proof. intros H; destruct s; simpl find; now rewrite H. Qed.

(** [find] returns the offset of an occurrence. *)
Lemma find_some_split (sub s : str) (n : nat) :
  find sub s = Some n ->
  exists g rest, s = g ++ sub ++ rest /\ length g = n.
Proof.
  revert n; induction s as [|c s IH]; intros n H.
  - simpl in H. destruct (starts_with sub []) eqn:E; [|discriminate].
    injection H as <-. destruct (starts_with_split _ _ E) as [rest ->].
    now exists [], rest.
  - destruct (starts_with sub (c :: s)) eqn:E.
    + rewrite (find_hit _ _ E) in H. injection H as <-.
      destruct (starts_with_split _ _ E) as [rest ->].
      now exists [], rest.
    + rewrite (find_cons_miss _ _ _ E) in H.
      destruct (find sub s) as [k|] eqn:F; [|discriminate].
      injection H as <-.
      destruct (IH k eq_refl) as (g & rest & -> & Hg).
      exists (c :: g), rest; simpl; now rewrite Hg.
Qed.

(** No occurrence in a text, none in any of its suffixes. *)
Lemma find_none_suffix (sub a b : str) :
  find sub (a ++ b) = None -> find sub b = None.
Proof.
  induction a as [|c a IH]; [easy|]; intros H.
  simpl app in H.
  destruct (starts_with sub (c :: a ++ b)) eqn:E.
  - now rewrite (find_hit _ _ E) in H.
  - rewrite (find_cons_miss _ _ _ E) in H.
    destruct (find sub (a ++ b)); [discriminate|]; now apply IH.
Qed.

Lemma replace_from_skip (old new a b : str) :
  replace_from old new (length a) (a ++ b) = replace_from old new 0 b.
Proof. induction a as [|c a IH]; [reflexivity|exact IH]. Qed.

Lemma replace_from_cons (old new : str) (c : ascii) (s : str) :
  replace_from old new 0 (c :: s)
  = if starts_with old (c :: s)
    then new ++ replace_from old new (length old - 1) s
    else c :: replace_from old new 0 s.
Proof. reflexivity. Qed.

Lemma replace_from_none (old new s : str) :
  find old s = None -> replace_from old new 0 s = s.
Proof.
  induction s as [|c s IH]; intros H; [reflexivity|].
  destruct (starts_with old (c :: s)) eqn:E.
  - now rewrite (find_hit _ _ E) in H.
  - rewrite (find_cons_miss _ _ _ E) in H.
    destruct (find old s); [discriminate|].
    rewrite replace_from_cons, E; now rewrite IH.
Qed.

Lemma replace_from_hit (old new rest : str) :
  old <> [] ->
  replace_from old new 0 (old ++ rest) = new ++ replace_from old new 0 rest.
Proof.
  intros Hold; destruct old as [|a old]; [congruence|].
  pose proof (starts_with_app (a :: old) rest) as E.
  change ((a :: old) ++ rest) with (a :: old ++ rest) in *.
  rewrite replace_from_cons, E.
  change (length (a :: old) - 1) with (length old - 0).
  now rewrite Nat.sub_0_r, replace_from_skip.
Qed.

Lemma replace_from_find (old new g rest : str) :
  old <> [] ->
  find old (g ++ old ++ rest) = Some (length g) ->
  replace_from old new 0 (g ++ old ++ rest)
  = g ++ new ++ replace_from old new 0 rest.
Proof.
  intros Hold; induction g as [|c g IH]; intros H.
  - now apply (replace_from_hit old new rest).
  - simpl app in *.
    destruct (starts_with old (c :: g ++ old ++ rest)) eqn:E.
    + now rewrite (find_hit _ _ E) in H.
    + rewrite (find_cons_miss _ _ _ E) in H.
      destruct (find old (g ++ old ++ rest)) as [k|] eqn:F; [|discriminate].
      injection H as ->.
      rewrite replace_from_cons, E; now rewrite IH.
Qed.

(** What [str.replace] does to a text: all of it. *)
Inductive replaced_all (old new : str) : str -> str -> Prop :=
| replaced_between (s : str) :
    old = [] ->
    replaced_all old new s (new ++ flat_map (fun c => c :: new) s)
| replaced_none (s : str) :
    find old s = None -> replaced_all old new s s
| replaced_hit (g rest out : str) :
    old <> [] ->
    find old (g ++ old ++ rest) = Some (length g) ->
    replaced_all old new rest out ->
    replaced_all old new (g ++ old ++ rest) (g ++ new ++ out).

Lemma replace_from_all (old new : str) (n : nat) (s : str) :
  old <> [] -> length s <= n ->
  replaced_all old new s (replace_from old new 0 s).
Proof.
  intros Hold; revert s; induction n as [|n IH]; intros s Hn.
  - destruct s; [|simpl in Hn; lia].
    apply replaced_none. destruct old; [congruence|reflexivity].
  - destruct (find old s) as [k|] eqn:F.
    + destruct (find_some_split _ _ _ F) as (g & rest & -> & <-).
      rewrite replace_from_find by assumption.
      apply replaced_hit; try assumption.
      apply IH. rewrite !length_app in Hn.
      destruct old; [congruence|]. simpl in Hn. lia.
    + rewrite replace_from_none by assumption. now apply replaced_none.
Qed.

Lemma str_replace_all (old new s : str) :
  replaced_all old new s (str_replace old new s).
Proof.
  destruct old as [|a old].
  - now apply replaced_between.
  - apply (replace_from_all (a :: old) new (length s)); [easy|lia].
Qed.

(** The one occurrence of [old] in a text is what is replaced. *)
Lemma str_replace_once (old new head tail : str) :
  find old (head ++ old ++ tail) = Some (length head) ->
  find old tail = None ->
  str_replace old new (head ++ old ++ tail) = head ++ new ++ tail.
Proof.
  intros Hhead Htail.
  destruct old as [|a old]; [now rewrite find_nil in Htail|].
  change (str_replace (a :: old) new ?s) with (replace_from (a :: old) new 0 s).
  rewrite replace_from_find by easy.
  now rewrite replace_from_none.
Qed.

Lemma str_replace_absent (old new s : str) :
  find old s = None -> str_replace old new s = s.
Proof.
  intros H. destruct old as [|a old]; [now rewrite find_nil in H|].
  now apply replace_from_none.
Qed.

(** ** Regular expressions *)

Lemma match_here_lazy (r : regex) (s : str) :
  match_here (LazyDotStar :: r) s
  = match match_here r s with
    | Some n => Some n
    | None =>
        match s with
        | [] => None
        | _ :: s' => option_map S (match_here (LazyDotStar :: r) s')
        end
    end.
Proof. now destruct s. Qed.

(** A match is a prefix of the text. *)
Lemma match_here_le (p : regex) (s : str) (n : nat) :
  match_here p s = Some n -> n <= length s.
Proof.
  revert s n; induction p as [|[a|] r IH]; intros s n H.
  - injection H as <-; lia.
  - destruct s as [|c s]; simpl in H; [discriminate|].
    destruct (Ascii.eqb a c); [|discriminate].
    destruct (match_here r s) as [k|] eqn:E; [|discriminate].
    injection H as <-. apply IH in E. simpl; lia.
  - revert n H; induction s as [|c s IHs]; intros n H;
      rewrite match_here_lazy in H.
    + destruct (match_here r []) eqn:E; [|discriminate].
      injection H as <-. now apply IH in E.
    + destruct (match_here r (c :: s)) eqn:E.
      * injection H as <-. now apply IH in E.
      * destruct (match_here (LazyDotStar :: r) s) as [k|]; [|discriminate].
        injection H as <-. specialize (IHs k eq_refl). simpl; lia.
Qed.

Lemma match_here_split (p : regex) (s : str) (n : nat) :
  match_here p s = Some n ->
  exists m rest, s = m ++ rest /\ length m = n.
Proof.
  intros H%match_here_le.
  exists (firstn n s), (skipn n s); split.
  - now rewrite firstn_skipn.
  - now apply firstn_length_le.
Qed.

Lemma sub_from_skip (p : regex) (repl a b : str) :
  sub_from p repl (length a) (a ++ b) = sub_from p repl 0 b.
Proof.
  induction a as [|c a IH]; [|exact IH].
  now destruct b.
Qed.

Lemma re_search_cons (p : regex) (c : ascii) (s : str) :
  re_search p (c :: s)
  = match match_here p (c :: s) with
    | Some n => Some (0, n)
    | None =>
        match re_search p s with
        | Some (i, n) => Some (S i, n)
        | None => None
        end
    end.
Proof. reflexivity. Qed.

(** Nothing to find, nothing removed. *)
Lemma re_sub_none (p : regex) (s : str) :
  re_search p s = None -> re_sub p [] s = s.
Proof.
  unfold re_sub; induction s as [|c s IH]; intros H.
  - simpl in *. now destruct (match_here p []).
  - rewrite re_search_cons in H. simpl sub_from.
    destruct (match_here p (c :: s)); [discriminate|].
    destruct (re_search p s) as [[i n]|]; [discriminate|].
    now rewrite IH.
Qed.

(** The leftmost match is cut out and the scan goes on behind it. *)
Lemma re_sub_some (p : regex) (s : str) (i n : nat) :
  re_search p s = Some (i, S n) ->
  exists g m rest,
    s = g ++ m ++ rest /\ length g = i /\ length m = S n /\
    re_sub p [] s = g ++ re_sub p [] rest.
Proof.
  unfold re_sub; revert i; induction s as [|c s IH]; intros i H.
  - simpl in H. destruct (match_here p []) as [k|] eqn:E; [|discriminate].
    injection H as <- ->. apply match_here_le in E. simpl in E; lia.
  - rewrite re_search_cons in H.
    destruct (match_here p (c :: s)) as [k|] eqn:E.
    + injection H as <- ->.
      destruct (match_here_split _ _ _ E) as (m & rest & Hs & Hm).
      destruct m as [|c' m]; [discriminate|].
      injection Hs as <- ->. injection Hm as Hm.
      exists [], (c :: m), rest; repeat split; [simpl; lia|].
      simpl app at 2. simpl sub_from. rewrite E.
      rewrite <- Hm. now rewrite sub_from_skip.
    + destruct (re_search p s) as [[j k]|]; [|discriminate].
      injection H as <- ->.
      destruct (IH j eq_refl) as (g & m & rest & -> & Hg & Hm & Hsub).
      exists (c :: g), m, rest; repeat split; [simpl; lia|assumption|].
      simpl app. simpl sub_from. rewrite E. now rewrite Hsub.
Qed.

(** What deleting the matches of [p] does to a text. *)
Inductive removed (p : regex) : str -> str -> Prop :=
| removed_none (s : str) :
    re_search p s = None -> removed p s s
| removed_span (g m rest out : str) :
    re_search p (g ++ m ++ rest) = Some (length g, length m) ->
    m <> [] ->
    removed p rest out ->
    removed p (g ++ m ++ rest) (g ++ out).

(** A pattern that matches no empty text. *)
Definition never_empty (p : regex) : Prop :=
  forall s, match_here p s <> Some 0.

Lemma re_search_never_empty (p : regex) (s : str) (i : nat) :
  never_empty p -> re_search p s <> Some (i, 0).
Proof.
  intros Hp; revert i; induction s as [|c s IH]; intros i H.
  - simpl in H. destruct (match_here p []) as [k|] eqn:E; [|discriminate].
    injection H as <- ->. now apply (Hp []).
  - rewrite re_search_cons in H.
    destruct (match_here p (c :: s)) as [k|] eqn:E.
    + injection H as <- ->. now apply (Hp (c :: s)).
    + destruct (re_search p s) as [[j k]|] eqn:F; [|discriminate].
      injection H as <- ->. now apply (IH j).
Qed.

Lemma re_sub_removed_upto (p : regex) (n : nat) (s : str) :
  never_empty p -> length s <= n -> removed p s (re_sub p [] s).
Proof.
  intros Hp; revert s; induction n as [|n IH]; intros s Hn.
  - destruct s; [|simpl in Hn; lia].
    destruct (re_search p []) as [[i k]|] eqn:F.
    + exfalso. simpl in F.
      destruct (match_here p []) as [j|] eqn:E; [|discriminate].
      injection F as <- <-. pose proof (match_here_le _ _ _ E) as L.
      simpl in L. assert (j = 0) as -> by lia. now apply (Hp []).
    + rewrite re_sub_none by assumption. now apply removed_none.
  - destruct (re_search p s) as [[i k]|] eqn:F.
    + destruct k as [|k]; [now apply re_search_never_empty in F|].
      destruct (re_sub_some _ _ _ _ F) as (g & m & rest & -> & Hg & Hm & ->).
      apply removed_span.
      * now rewrite Hg, Hm.
      * destruct m; [discriminate|easy].
      * apply IH. rewrite !length_app in Hn. lia.
    + rewrite re_sub_none by assumption. now apply removed_none.
Qed.

Lemma re_sub_removed (p : regex) (s : str) :
  never_empty p -> removed p s (re_sub p [] s).
Proof. intros Hp. now apply (re_sub_removed_upto p (length s)). Qed.

(** *** Patterns of the shape [opening.*?closing] *)

Definition bracket (opening closing : str) : regex :=
  map Lit opening ++ LazyDotStar :: map Lit closing.

Lemma match_here_lits (a : str) (r : regex) (s : str) :
  match_here (map Lit a ++ r) s
  = if starts_with a s
    then option_map (Nat.add (length a)) (match_here r (skipn (length a) s))
    else None.
Proof.
  revert s; induction a as [|x a IH]; intros s.
  - simpl. now destruct (match_here r s).
  - destruct s as [|c s]; [reflexivity|].
    simpl. destruct (Ascii.eqb x c); [|reflexivity].
    rewrite IH. destruct (starts_with a s); [|reflexivity].
    now destruct (match_here r (skipn (length a) s)).
Qed.

Lemma match_here_closing (b s : str) :
  match_here (map Lit b) s
  = if starts_with b s then Some (length b) else None.
Proof.
  rewrite <- (app_nil_r (map Lit b)), match_here_lits.
  destruct (starts_with b s); [|reflexivity].
  simpl. now rewrite Nat.add_0_r.
Qed.

(** The lazy star stops at the first occurrence of what follows it. *)
Lemma match_here_lazy_closing (b s : str) :
  match_here (LazyDotStar :: map Lit b) s
  = option_map (fun k => k + length b) (find b s).
Proof.
  induction s as [|c s IH]; rewrite match_here_lazy, match_here_closing.
  - simpl. now destruct (starts_with b []).
  - destruct (starts_with b (c :: s)) eqn:E.
    + now rewrite (find_hit _ _ E).
    + rewrite (find_cons_miss _ _ _ E), IH.
      now destruct (find b s).
Qed.

Lemma match_here_bracket (a b s : str) :
  match_here (bracket a b) s
  = if starts_with a s
    then option_map (fun k => length a + (k + length b))
           (find b (skipn (length a) s))
    else None.
Proof.
  unfold bracket. rewrite match_here_lits, match_here_lazy_closing.
  destruct (starts_with a s); [|reflexivity].
  now destruct (find b (skipn (length a) s)).
Qed.

Lemma bracket_never_empty (a b : str) : a <> [] -> never_empty (bracket a b).
Proof.
  intros Ha s H. rewrite match_here_bracket in H.
  destruct (starts_with a s); [|discriminate].
  destruct (find b (skipn (length a) s)); [|discriminate].
  injection H as H. destruct a; [congruence|simpl in H; lia].
Qed.

(** The leftmost match starts at the first [opening] and ends with the
    first [closing] behind it; without such a [closing] nothing matches. *)
Lemma re_search_bracket (a b s : str) :
  a <> [] ->
  re_search (bracket a b) s
  = match find a s with
    | Some i =>
        option_map (fun k => (i, length a + (k + length b)))
          (find b (skipn (i + length a) s))
    | None => None
    end.
Proof.
  intros Ha; induction s as [|c s IH].
  - simpl re_search. rewrite match_here_bracket.
    destruct a as [|x a]; [congruence|]. reflexivity.
  - rewrite re_search_cons, match_here_bracket.
    destruct (starts_with a (c :: s)) eqn:E.
    + rewrite (find_hit _ _ E). simpl Nat.add.
      destruct (find b (skipn (length a) (c :: s))) as [k|] eqn:F;
        [reflexivity|].
      simpl option_map. rewrite IH.
      destruct (find a s) as [i|]; [|reflexivity].
      assert (find b (skipn (i + length a) s) = None) as ->; [|reflexivity].
      apply find_none_suffix
        with (a := firstn (S i) (skipn (length a) (c :: s))).
      replace (skipn (i + length a) s)
        with (skipn (S i) (skipn (length a) (c :: s))).
      * now rewrite firstn_skipn.
      * rewrite skipn_skipn. reflexivity.
    + rewrite (find_cons_miss _ _ _ E), IH.
      destruct (find a s) as [i|]; [|reflexivity].
      simpl. now destruct (find b (skipn (i + length a) s)).
Qed.

Lemma app_same_length {A} (x x' y y' : list A) :
  x ++ y = x' ++ y' -> length x = length x' -> x = x' /\ y = y'.
Proof.
  revert x'; induction x as [|a x IH]; intros [|a' x'] H L;
    try discriminate; [easy|].
  injection H as <- H. injection L as L.
  destruct (IH _ H L) as [-> ->]. easy.
Qed.

Lemma skipn_length_app {A} (x y : list A) : skipn (length x) (x ++ y) = y.
Proof. induction x; [reflexivity|assumption]. Qed.

(** A span matched by [opening.*?closing]: it starts with the leftmost
    [opening] and its body runs to the first [closing] behind that. *)
Lemma bracket_span (a b g m rest : str) :
  a <> [] ->
  re_search (bracket a b) (g ++ m ++ rest) = Some (length g, length m) ->
  exists body,
    m = a ++ body ++ b /\
    find a (g ++ m ++ rest) = Some (length g) /\
    find b (body ++ b ++ rest) = Some (length body).
Proof.
  intros Ha H. rewrite re_search_bracket in H by assumption.
  destruct (find a (g ++ m ++ rest)) as [i|] eqn:Fa; [|discriminate].
  destruct (find b (skipn (i + length a) (g ++ m ++ rest))) as [k|] eqn:Fb;
    [|discriminate].
  injection H as -> Hm.
  destruct (find_some_split _ _ _ Fa) as (g' & r' & Hs & Hg).
  destruct (app_same_length _ _ _ _ Hs (eq_sym Hg)) as [<- Hrest].
  rewrite Hs, app_assoc, <- length_app, skipn_length_app in Fb.
  destruct (find_some_split _ _ _ Fb) as (body & rest' & -> & <-).
  rewrite (app_assoc body), (app_assoc a) in Hrest.
  apply app_same_length in Hrest as [-> ->].
  - exists body. repeat split; assumption.
  - rewrite !length_app. lia.
Qed.

(** The text holds a span that [opening.*?closing] matches: an [opening]
    with a [closing] somewhere behind it. *)
Definition has_span (opening closing s : str) : Prop :=
  exists g body rest, s = g ++ opening ++ body ++ closing ++ rest.

Lemma find_occurrence (sub x y : str) : find sub (x ++ sub ++ y) <> None.
Proof.
  intros H. apply find_none_suffix in H.
  now rewrite (find_hit _ _ (starts_with_app sub y)) in H.
Qed.

(** [find] returns the leftmost occurrence. *)
Lemma find_leftmost (sub g r : str) (i : nat) :
  find sub (g ++ sub ++ r) = Some i -> i <= length g.
Proof.
  revert i; induction g as [|c g IH]; intros i H.
  - cbn [app] in H. rewrite (find_hit _ _ (starts_with_app sub r)) in H.
    injection H as <-. apply Nat.le_0_l.
  - cbn [app] in H. destruct (starts_with sub (c :: g ++ sub ++ r)) eqn:E.
    + rewrite (find_hit _ _ E) in H. injection H as <-. apply Nat.le_0_l.
    + rewrite (find_cons_miss _ _ _ E) in H.
      destruct (find sub (g ++ sub ++ r)) as [k|]; [|discriminate].
      injection H as <-. specialize (IH k eq_refl). simpl; lia.
Qed.

(** The matcher finds a match exactly in the texts that hold a span. *)
Lemma re_search_none_no_span (a b s : str) :
  a <> [] -> re_search (bracket a b) s = None -> ~ has_span a b s.
Proof.
  intros Ha H (g & body & rest & ->).
  rewrite re_search_bracket in H by assumption.
  destruct (find a (g ++ a ++ body ++ b ++ rest)) as [i|] eqn:Fa;
    [|now apply find_occurrence in Fa].
  apply find_leftmost in Fa.
  destruct (find b (skipn (i + length a) (g ++ a ++ body ++ b ++ rest)))
    eqn:Fb; [discriminate|].
  rewrite (app_assoc g a), skipn_app in Fb.
  replace (i + length a - length (g ++ a)) with 0 in Fb
    by (rewrite length_app; lia).
  cbn [skipn] in Fb. rewrite (app_assoc _ body) in Fb.
  now apply find_occurrence in Fb.
Qed.

Lemma no_span_re_search_none (a b s : str) :
  a <> [] -> ~ has_span a b s -> re_search (bracket a b) s = None.
Proof.
  intros Ha H. rewrite re_search_bracket by assumption.
  destruct (find a s) as [i|] eqn:Fa; [|reflexivity].
  destruct (find b (skipn (i + length a) s)) as [k|] eqn:Fb; [|reflexivity].
  exfalso. apply H.
  destruct (find_some_split _ _ _ Fa) as (g & r & -> & <-).
  rewrite app_assoc, <- length_app, skipn_length_app in Fb.
  destruct (find_some_split _ _ _ Fb) as (body & rest & -> & _).
  now exists g, body, rest.
Qed.

(** What deleting the matches of [opening.*?closing] does to a text: the
    text before the leftmost [opening] stays, the span from there to the
    first [closing] behind it goes, and so on behind that span; a text that
    holds no span stays as it is. *)
Inductive stripped (opening closing : str) : str -> str -> Prop :=
| stripped_none (s : str) :
    ~ has_span opening closing s ->
    stripped opening closing s s
| stripped_span (g body rest out : str) :
    find opening (g ++ (opening ++ body ++ closing) ++ rest)
      = Some (length g) ->
    find closing (body ++ closing ++ rest) = Some (length body) ->
    stripped opening closing rest out ->
    stripped opening closing
      (g ++ (opening ++ body ++ closing) ++ rest) (g ++ out).

Lemma removed_stripped (a b s out : str) :
  a <> [] -> removed (bracket a b) s out -> stripped a b s out.
Proof.
  intros Ha H; induction H as [s H|g m rest out H Hm _ IH].
  - apply stripped_none. now apply re_search_none_no_span.
  - destruct (bracket_span _ _ _ _ _ Ha H) as (body & -> & Fa & Fb).
    now apply stripped_span.
Qed.

Lemma re_sub_stripped (a b s : str) :
  a <> [] -> stripped a b s (re_sub (bracket a b) [] s).
Proof.
  intros Ha. apply removed_stripped; [assumption|].
  apply re_sub_removed. now apply bracket_never_empty.
Qed.

(** [stripped] leaves one result only, the one of [re.sub]. *)
Lemma stripped_re_sub (a b s out : str) :
  a <> [] -> stripped a b s out -> out = re_sub (bracket a b) [] s.
Proof.
  intros Ha H; induction H as [s H|g body rest out Fa Fb _ IH].
  - symmetry. apply re_sub_none. now apply no_span_re_search_none.
  - assert (re_search (bracket a b) (g ++ (a ++ body ++ b) ++ rest)
            = Some (length g, length a + (length body + length b))) as R.
    { rewrite re_search_bracket, Fa by assumption.
      rewrite <- (app_assoc a), app_assoc, <- length_app, skipn_length_app.
      rewrite <- app_assoc. now rewrite Fb. }
    destruct a as [|x a]; [congruence|]. cbn [length Nat.add] in R.
    destruct (re_sub_some _ _ _ _ R) as (g0 & m0 & rest0 & Hs & Hg & Hm & ->).
    apply app_same_length in Hs as [<- Hs]; [|now symmetry].
    apply app_same_length in Hs as [_ <-].
    + now rewrite IH.
    + rewrite Hm, !length_app. cbn [length]. lia.
Qed.

Definition subscribe_opening : str := lit "##  Subscribe to our emails".
Definition subscribe_closing : str := lit "* Opens in a new window.".
Definition banner_opening : str := lit "Skip to content".
Definition banner_closing : str :=
  lit "View cart Check out  Continue shopping".

Lemma subscribe_pattern_bracket :
  subscribe_pattern = bracket subscribe_opening subscribe_closing.
Proof. reflexivity. Qed.

Lemma banner_pattern_bracket :
  banner_pattern = bracket banner_opening banner_closing.
Proof. reflexivity. Qed.

Lemma clean_eq (content : str) :
  clean content
  = re_sub banner_pattern [] (re_sub subscribe_pattern [] content).
Proof. reflexivity. Qed.

(** C5, as the code has it.  The cleanup of [scrape_urls] works in two
    passes.  The first deletes from the crawled text exactly the spans of
    the subscription pattern (each from the leftmost opening phrase to the
    first closing phrase behind it, then on behind that span) and keeps all
    other text; the second does the same for the banner pattern on the text
    that the first pass has left.  A text that holds no span of either
    pattern is returned unchanged. *)
Theorem clean_strips_matched_spans (content : str) :
  (exists middle,
     stripped subscribe_opening subscribe_closing content middle /\
     stripped banner_opening banner_closing middle (clean content)) /\
  (~ has_span subscribe_opening subscribe_closing content ->
   ~ has_span banner_opening banner_closing content ->
   clean content = content).
Proof.
  rewrite clean_eq, subscribe_pattern_bracket, banner_pattern_bracket.
  split.
  - exists (re_sub (bracket subscribe_opening subscribe_closing) [] content).
    split; apply re_sub_stripped; discriminate.
  - intros H1 H2.
    rewrite (re_sub_none _ content)
      by (apply no_span_re_search_none; [discriminate|exact H1]).
    apply re_sub_none. apply no_span_re_search_none; [discriminate|exact H2].
Qed.

(** A page with both kinds of boilerplate around its text. *)
Definition shop_page : str :=
  lit "Skip to content Menu View cart Check out  Continue shopping# Tea##  Subscribe to our emails x * Opens in a new window. end".

Example clean_boilerplate : clean shop_page = lit "# Tea end".
Proof. reflexivity. Qed.

Definition plain_page : str := lit "# Title  plain text, no boilerplate".

Lemma clean_strips_matched_spans_witness :
  clean plain_page = plain_page /\
  exists middle,
    stripped subscribe_opening subscribe_closing shop_page middle /\
    stripped banner_opening banner_closing middle (lit "# Tea end").
Proof.
  split.
  - apply (proj2 (clean_strips_matched_spans plain_page)).
    + apply re_search_none_no_span; [discriminate|reflexivity].
    + apply re_search_none_no_span; [discriminate|reflexivity].
  - exact (proj1 (clean_strips_matched_spans shop_page)).
Defined.

(** The property as the specification words it, where the words leave no
    choice: what goes are the spans that the patterns match in the input.
    So when only one of the patterns has a span in the input, the output is
    the input without the spans of that pattern. *)
Definition spec_removes_input_spans (content out : str) : Prop :=
  (~ has_span banner_opening banner_closing content ->
   stripped subscribe_opening subscribe_closing content out) /\
  (~ has_span subscribe_opening subscribe_closing content ->
   stripped banner_opening banner_closing content out).

(** A page in which the banner's opening phrase is broken in two by a
    subscription block. *)
Definition joined_page : str :=
  lit "Skip to ##  Subscribe to our emails x * Opens in a new window.content Menu View cart Check out  Continue shopping end".

(** C5 fails as worded: the banner pattern has no span in [joined_page],
    yet the text around the subscription block is deleted up to [" end"],
    because the second pass runs on what the first has left, where the two
    halves of ["Skip to content"] have come together. *)
Lemma clean_input_spans_counterexample :
  ~ has_span banner_opening banner_closing joined_page /\
  clean joined_page = lit " end" /\
  ~ spec_removes_input_spans joined_page (clean joined_page).
Proof.
  assert (~ has_span banner_opening banner_closing joined_page) as Hnone
    by (apply re_search_none_no_span; [discriminate|reflexivity]).
  split; [exact Hnone|split; [reflexivity|]].
  intros [H _]. specialize (H Hnone).
  apply stripped_re_sub in H; [|discriminate].
  vm_compute in H. discriminate.
Qed.

(** ** Steps of a computation *)

Lemma bind_ok {A B} (m : M A) (k : A -> M B) (h h' : list call) (a : A) :
  m h = (inr a, h') -> bind m k h = k a h'.
Proof. unfold bind. now intros ->. Qed.

Lemma bind_fail {A B} (m : M A) (k : A -> M B) (h h' : list call) (e : exn) :
  m h = (inl e, h') -> bind m k h = (inl e, h').
Proof. unfold bind. now intros ->. Qed.

Lemma bind_ext_ok {B} (w : world) (c : call) (r : reply_of c)
    (k : reply_of c -> M B) (h : list call) :
  w h c = inr r -> bind (ext w c) k h = k r (h ++ [c]).
Proof. unfold bind, ext. now intros ->. Qed.

Lemma bind_ext_fail {B} (w : world) (c : call) (e : exn)
    (k : reply_of c -> M B) (h : list call) :
  w h c = inl e -> bind (ext w c) k h = (inl e, h ++ [c]).
Proof. unfold bind, ext. now intros ->. Qed.

(** ** Content acquisition *)

Section Acquisition.

Variable w : world.

(** The Markdown the crawler returns for the URLs, fetched one after the
    other from history [h]; [None] when a fetch raises. *)
Fixpoint crawled (h : list call) (urls : list str) : option (list str) :=
  match urls with
  | [] => Some []
  | url :: rest =>
      match w h (crawler_run url) with
      | inr result =>
          option_map (cons (markdown result))
            (crawled (h ++ [crawler_run url]) rest)
      | inl _ => None
      end
  end.

Definition scrape_failure (url : str) (e : exn) : exn :=
  HTTPException 500
    (lit "Failed to scrape " ++ url ++ lit ": " ++ exn_str e).

Lemma scrape_loop_cons (url : str) (rest acc : list str) (h : list call) :
  scrape_loop w (url :: rest) acc h
  = match w h (crawler_run url) with
    | inr result =>
        scrape_loop w rest (acc ++ [clean (markdown result)])
          (h ++ [crawler_run url])
    | inl e => (inl (scrape_failure url e), h ++ [crawler_run url])
    end.
Proof.
  cbn [scrape_loop]. unfold bind, try_except, ext, ret, raise.
  now destruct (w h (crawler_run url)).
Qed.

Lemma scrape_loop_ok (urls acc pages : list str) (h : list call) :
  crawled h urls = Some pages ->
  scrape_loop w urls acc h
  = (inr (acc ++ map clean pages), h ++ map crawler_run urls).
Proof.
  revert acc pages h; induction urls as [|url rest IH]; intros acc pages h H.
  - injection H as <-. simpl. now rewrite !app_nil_r.
  - rewrite scrape_loop_cons. simpl in H.
    destruct (w h (crawler_run url)) as [e|result]; [discriminate|].
    destruct (crawled (h ++ [crawler_run url]) rest) as [more|] eqn:E;
      [|discriminate].
    injection H as <-. rewrite (IH _ _ _ E). simpl.
    now rewrite <- !app_assoc.
Qed.

Lemma scrape_loop_fail (before after acc pages : list str) (url : str)
    (e : exn) (h : list call) :
  crawled h before = Some pages ->
  w (h ++ map crawler_run before) (crawler_run url) = inl e ->
  scrape_loop w (before ++ url :: after) acc h
  = (inl (scrape_failure url e),
     h ++ map crawler_run before ++ [crawler_run url]).
Proof.
  revert acc pages h; induction before as [|u before IH];
    intros acc pages h H F.
  - cbn [map app] in *. rewrite app_nil_r in F. rewrite scrape_loop_cons.
    change (reply_of (crawler_run url)) with crawl_result in *.
    now rewrite F.
  - simpl app. rewrite scrape_loop_cons. simpl in H.
    destruct (w h (crawler_run u)) as [e'|result]; [discriminate|].
    destruct (crawled (h ++ [crawler_run u]) before) as [more|] eqn:E;
      [|discriminate].
    rewrite (IH _ _ _ E).
    + cbn [map app]. now rewrite <- !app_assoc.
    + cbn [map app] in F. now rewrite <- app_assoc.
Qed.

End Acquisition.

(** The calls [scrape_urls] makes to fetch a batch. *)
Definition fetches (urls : list str) : list call :=
  [WebCrawler_init; crawler_warmup] ++ map crawler_run urls.

Definition temp_file : call := NamedTemporaryFile (lit "w") false (lit ".md").

(** C2.  When the crawler starts and fetches every URL of the batch, and a
    temporary file can be created and written, [scrape_urls] writes to that
    file the cleaned texts of the URLs joined by the separator, in the order
    of the input, and returns the path of that file; it makes no other
    call. *)
Theorem scrape_urls_document (w : world) (urls pages : list str)
    (h : list call) (path : str) :
  w h WebCrawler_init = inr tt ->
  w (h ++ [WebCrawler_init]) crawler_warmup = inr tt ->
  crawled w (h ++ [WebCrawler_init; crawler_warmup]) urls = Some pages ->
  w (h ++ fetches urls) temp_file = inr path ->
  w (h ++ fetches urls ++ [temp_file])
    (temp_file_write path (join separator (map clean pages))) = inr tt ->
  scrape_urls w urls h
  = (inr path,
     h ++ fetches urls
       ++ [temp_file;
           temp_file_write path (join separator (map clean pages))]).
Proof.
  intros Hinit Hwarm Hpages Hfile Hwrite.
  unfold scrape_urls.
  rewrite (bind_ext_ok w WebCrawler_init tt _ h Hinit).
  rewrite (bind_ext_ok w crawler_warmup tt _ _ Hwarm).
  rewrite <- app_assoc. cbn [app].
  rewrite (bind_ok _ _ _ _ _ (scrape_loop_ok w _ [] _ _ Hpages)).
  unfold fetches in *. rewrite <- !app_assoc in *. cbn [app] in *.
  rewrite (bind_ext_ok w temp_file path _ _ Hfile).
  rewrite <- !app_assoc. cbn [app].
  rewrite (bind_ext_ok w (temp_file_write _ _) tt _ _ Hwrite).
  unfold ret. repeat (rewrite <- app_assoc; cbn [app]). reflexivity.
Qed.

Lemma scrape_urls_document_witness :
  scrape_urls (stand_in demo_web never_down []) [lit "a"; lit "b"] []
  = (inr (lit "/tmp/tmp4.md"),
     [WebCrawler_init; crawler_warmup; crawler_run (lit "a");
      crawler_run (lit "b"); temp_file;
      temp_file_write (lit "/tmp/tmp4.md")
        (lit "page of a" ++ separator ++ lit "page of b")]).
Proof.
  exact (scrape_urls_document (stand_in demo_web never_down [])
           [lit "a"; lit "b"] [lit "page of a"; lit "page of b"] []
           (lit "/tmp/tmp4.md")
           eq_refl eq_refl eq_refl eq_refl eq_refl).
Defined.

Ltac flatten_history :=
  repeat (rewrite <- app_assoc; cbn [app]).

Lemma scrape_urls_fail (w : world) (before after pages : list str)
    (url : str) (e : exn) (h : list call) :
  w h WebCrawler_init = inr tt ->
  w (h ++ [WebCrawler_init]) crawler_warmup = inr tt ->
  crawled w (h ++ [WebCrawler_init; crawler_warmup]) before = Some pages ->
  w (h ++ fetches before) (crawler_run url) = inl e ->
  scrape_urls w (before ++ url :: after) h
  = (inl (scrape_failure url e), h ++ fetches (before ++ [url])).
Proof.
  intros Hinit Hwarm Hpages Hfail.
  unfold scrape_urls.
  rewrite (bind_ext_ok w WebCrawler_init tt _ h Hinit).
  rewrite (bind_ext_ok w crawler_warmup tt _ _ Hwarm).
  flatten_history.
  unfold fetches in *. rewrite app_assoc in Hfail.
  rewrite (bind_fail _ _ _ _ _
             (scrape_loop_fail w _ after [] _ _ _ _ Hpages Hfail)).
  rewrite map_app. now flatten_history.
Qed.

(** C3.  When the fetch of a URL of the batch raises (the crawler has
    started and the URLs before it were fetched), [scrape_urls] raises an
    [HTTPException] whose detail names that URL, and [/scrape_and_upsert]
    raises one whose detail contains it; the only calls made are the
    crawler's, up to the failing fetch: no file is created or written and no
    assistant or vector store is created, filled or updated. *)
Theorem scrape_failure_is_fail_fast (w : world) (before after pages : list str)
    (url : str) (e : exn) (h : list call) :
  w h WebCrawler_init = inr tt ->
  w (h ++ [WebCrawler_init]) crawler_warmup = inr tt ->
  crawled w (h ++ [WebCrawler_init; crawler_warmup]) before = Some pages ->
  w (h ++ fetches before) (crawler_run url) = inl e ->
  scrape_urls w (before ++ url :: after) h
  = (inl (HTTPException 500
            (lit "Failed to scrape " ++ url ++ lit ": " ++ exn_str e)),
     h ++ fetches (before ++ [url])) /\
  scrape_and_upsert w {| urls := before ++ url :: after |} h
  = (inl (HTTPException 500
            (lit "500: Failed to scrape " ++ url ++ lit ": " ++ exn_str e)),
     h ++ fetches (before ++ [url])) /\
  forallb (fun c => negb (is_document c || is_indexing c))
    (fetches (before ++ [url])) = true.
Proof.
  intros Hinit Hwarm Hpages Hfail.
  pose proof (scrape_urls_fail w before after pages url e h
                Hinit Hwarm Hpages Hfail) as H.
  split; [exact H|split].
  - unfold scrape_and_upsert, try_except. cbn [urls].
    now rewrite (bind_fail _ _ _ _ _ H).
  - unfold fetches. cbn [app forallb is_document is_indexing orb negb andb].
    apply forallb_forall. intros c Hc.
    apply in_map_iff in Hc as (u & <- & _). reflexivity.
Qed.

Lemma scrape_failure_is_fail_fast_witness :
  scrape_and_upsert (stand_in demo_web never_down [])
    {| urls := [lit "a"; lit "bad"; lit "c"] |} []
  = (inl (HTTPException 500 (lit "500: Failed to scrape bad: timeout")),
     [WebCrawler_init; crawler_warmup; crawler_run (lit "a");
      crawler_run (lit "bad")]).
Proof.
  exact (proj1 (proj2
    (scrape_failure_is_fail_fast (stand_in demo_web never_down [])
       [lit "a"] [lit "c"] [lit "page of a"] (lit "bad")
       (Exception (lit "timeout")) []
       eq_refl eq_refl eq_refl eq_refl))).
Defined.

(** ** Corpus assembly *)

(** The calls of [create_assistant_and_vectorstore], in order, given the
    identifiers the hosted API hands out. *)
Definition assembly_plan (file_path assistant vector_store : str)
  : list call :=
  [assistants_create (lit "Question-Answer Assistant") description
     instructions (lit "gpt-4o-mini") [lit "file_search"];
   vector_stores_create (lit "Scraped Content");
   open_rb file_path;
   file_batches_upload_and_poll vector_store [file_path];
   assistants_update assistant [vector_store]].

(** Every call of the list returns when they are made in order from [h]. *)
Fixpoint answered (w : world) (h : list call) (calls : list call) : Prop :=
  match calls with
  | [] => True
  | c :: rest => (exists r, w h c = inr r) /\ answered w (h ++ [c]) rest
  end.

Lemma assembly_fail (w : world) (file_path : str) (h h' : list call)
    (e : exn) :
  create_assistant_and_vectorstore w file_path h = (inl e, h') ->
  exists assistant vector_store done failing rest,
    assembly_plan file_path assistant vector_store = done ++ failing :: rest /\
    answered w h done /\
    w (h ++ done) failing = inl e /\
    h' = h ++ done ++ [failing].
Proof.
  unfold create_assistant_and_vectorstore; intros H.
  match type of H with bind (ext _ ?c) _ _ = _ =>
    destruct (w h c) as [e1|a] eqn:E1 end.
  { rewrite (bind_ext_fail _ _ _ _ _ E1) in H. injection H as <- <-.
    exists [], [], []. do 2 eexists. split; [reflexivity|].
    rewrite app_nil_r. now repeat split. }
  rewrite (bind_ext_ok _ _ _ _ _ E1) in H.
  match type of H with bind (ext _ ?c) _ ?h1 = _ =>
    destruct (w h1 c) as [e2|v] eqn:E2 end.
  { rewrite (bind_ext_fail _ _ _ _ _ E2) in H. injection H as <- <-.
    exists (assistant_id a), []. eexists [_]. do 2 eexists.
    split; [reflexivity|]. cbn [answered app].
    rewrite <- app_assoc. repeat split; eauto. }
  rewrite (bind_ext_ok _ _ _ _ _ E2) in H.
  match type of H with bind (ext _ ?c) _ ?h1 = _ =>
    destruct (w h1 c) as [e3|f] eqn:E3 end.
  { rewrite (bind_ext_fail _ _ _ _ _ E3) in H. injection H as <- <-.
    exists (assistant_id a), (vector_store_id v). eexists [_; _].
    do 2 eexists. split; [reflexivity|]. cbn [answered app].
    rewrite <- !app_assoc in *. cbn [app] in *. repeat split; eauto. }
  rewrite (bind_ext_ok _ _ _ _ _ E3) in H.
  match type of H with bind (ext _ ?c) _ ?h1 = _ =>
    destruct (w h1 c) as [e4|b] eqn:E4 end.
  { rewrite (bind_ext_fail _ _ _ _ _ E4) in H. injection H as <- <-.
    exists (assistant_id a), (vector_store_id v). eexists [_; _; _].
    do 2 eexists. split; [reflexivity|]. cbn [answered app].
    rewrite <- !app_assoc in *. cbn [app] in *. repeat split; eauto. }
  rewrite (bind_ext_ok _ _ _ _ _ E4) in H.
  match type of H with bind (ext _ ?c) _ ?h1 = _ =>
    destruct (w h1 c) as [e5|a'] eqn:E5 end.
  { rewrite (bind_ext_fail _ _ _ _ _ E5) in H. injection H as <- <-.
    exists (assistant_id a), (vector_store_id v). eexists [_; _; _; _].
    do 2 eexists. split; [reflexivity|]. cbn [answered app].
    rewrite <- !app_assoc in *. cbn [app] in *. repeat split; eauto. }
  rewrite (bind_ext_ok _ _ _ _ _ E5) in H. discriminate.
Qed.

Lemma assembly_plan_keeps (file_path assistant vector_store : str) :
  forallb (fun c => negb (is_delete c))
    (assembly_plan file_path assistant vector_store) = true.
Proof. reflexivity. Qed.

(** C8.  When a call of corpus assembly raises, whichever it is, the request
    ends with a server error carrying the text of that exception, and the
    last call made is the one that raised: the calls before it were answered
    (so the assistant or the vector store they created exist), the calls
    planned behind it are not made, and no call made deletes anything. *)
Theorem assembly_failure_no_cleanup (w : world) (batch : list str)
    (h h1 h2 : list call) (path : str) (e : exn) :
  scrape_urls w batch h = (inr path, h1) ->
  create_assistant_and_vectorstore w path h1 = (inl e, h2) ->
  scrape_and_upsert w {| urls := batch |} h
  = (inl (HTTPException 500 (exn_str e)), h2) /\
  exists assistant vector_store done failing rest,
    assembly_plan path assistant vector_store = done ++ failing :: rest /\
    answered w h1 done /\
    w (h1 ++ done) failing = inl e /\
    h2 = h1 ++ done ++ [failing] /\
    forallb (fun c => negb (is_delete c)) (done ++ [failing]) = true.
Proof.
  intros Hscrape Hfail. split.
  - unfold scrape_and_upsert, try_except. cbn [urls].
    rewrite (bind_ok _ _ _ _ _ Hscrape).
    now rewrite (bind_fail _ _ _ _ _ Hfail).
  - destruct (assembly_fail _ _ _ _ _ Hfail)
      as (a & v & done & failing & rest & Hplan & Hdone & He & Hh).
    exists a, v, done, failing, rest. repeat split; try assumption.
    pose proof (assembly_plan_keeps path a v) as K.
    rewrite Hplan in K. rewrite forallb_app in *.
    apply andb_true_iff in K as [K1 K2]. cbn [forallb] in *.
    apply andb_true_iff in K2 as [K2 _]. now rewrite K1, K2.
Qed.

(** The upload into the vector store is what fails. *)
Definition upload_down (h : list call) (c : call) : bool :=
  match c with
  | file_batches_upload_and_poll _ _ => true
  | _ => false
  end.

Lemma assembly_failure_no_cleanup_witness :
  scrape_and_upsert (stand_in demo_web upload_down []) {| urls := [lit "a"] |}
    []
  = (inl (HTTPException 500 (lit "service unavailable")),
     fetches [lit "a"]
       ++ [temp_file; temp_file_write (lit "/tmp/tmp3.md") (lit "page of a")]
       ++ firstn 4
            (assembly_plan (lit "/tmp/tmp3.md") (lit "asst_5") (lit "vs_6"))).
Proof.
  exact (proj1
    (assembly_failure_no_cleanup (stand_in demo_web upload_down [])
       [lit "a"] []
       (fetches [lit "a"]
          ++ [temp_file;
              temp_file_write (lit "/tmp/tmp3.md") (lit "page of a")])
       (fetches [lit "a"]
          ++ [temp_file;
              temp_file_write (lit "/tmp/tmp3.md") (lit "page of a")]
          ++ firstn 4
               (assembly_plan (lit "/tmp/tmp3.md") (lit "asst_5")
                  (lit "vs_6")))
       (lit "/tmp/tmp3.md") unavailable eq_refl eq_refl)).
Defined.

(** ** Query execution *)

(** [execute_rag_pipeline] up to [message_content]: the text of the first
    content block of the first message of the run. *)
Definition first_answer (w : world) (question : str)
    (assistant : assistant_obj) : M text_obj :=
  thread <- ext w (threads_create (lit "user") question) ;;
  _ <- file_search_of thread ;;
  run <- ext w (runs_create_and_poll (thread_id thread)
                  (assistant_id assistant)) ;;
  messages <- ext w (messages_list (thread_id thread) (run_id run)) ;;
  first_message <- first_item messages ;;
  first_block <- first_item (content first_message) ;;
  text_of first_block.

(** The answer string built from what the loop leaves. *)
Definition with_references (value : str) (citations : list str) : str :=
  value ++ [LF; LF] ++ join [LF] citations.

Lemma execute_rag_pipeline_steps (w : world) (question : str)
    (assistant : assistant_obj) (vector_store : vector_store_obj)
    (h : list call) :
  execute_rag_pipeline w question assistant vector_store h
  = match first_answer w question assistant h with
    | (inr message_content, h1) =>
        match annotate w 0 (annotations message_content)
                (value message_content) [] h1 with
        | (inr (value', citations'), h2) =>
            (inr (with_references value' citations'), h2)
        | (inl e, h2) => (inl e, h2)
        end
    | (inl e, h1) => (inl e, h1)
    end.
Proof.
  unfold execute_rag_pipeline, first_answer, bind, ext, file_search_of.
  destruct (w h _) as [e|thread]; [reflexivity|].
  destruct (tool_resources thread) as [resources|]; [|reflexivity].
  cbn [ret].
  destruct (w _ _) as [e|run]; [reflexivity|].
  destruct (w _ _) as [e|messages]; [reflexivity|].
  destruct messages as [|first_message ?]; [reflexivity|]. cbn [first_item ret].
  destruct (content first_message) as [|[t|] ?]; try reflexivity.
  cbn [first_item text_of ret].
  destruct (annotate _ _ _ _ _ _) as [[e|[value' citations']] h2];
    reflexivity.
Qed.

(** The value the loop of [execute_rag_pipeline] leaves: the texts of the
    annotations are replaced one after the other, each in what the
    replacements before it have left. *)
Fixpoint rewrite_value (index : nat) (texts : list str) (value : str) : str :=
  match texts with
  | [] => value
  | t :: rest =>
      rewrite_value (S index) rest (str_replace t (marker index) value)
  end.

(** The file lookups the loop makes. *)
Definition lookups (todo : list annotation_obj) : list call :=
  flat_map
    (fun a =>
       match file_citation a with
       | Some citation => [files_retrieve (file_id citation)]
       | None => []
       end)
    todo.

(** The file names the lookups return, made in order from history [h];
    [None] when a lookup raises. *)
Fixpoint resolved (w : world) (h : list call) (todo : list annotation_obj)
  : option (list str) :=
  match todo with
  | [] => Some []
  | a :: rest =>
      match file_citation a with
      | Some citation =>
          match w h (files_retrieve (file_id citation)) with
          | inr cited_file =>
              option_map (cons (filename cited_file))
                (resolved w (h ++ [files_retrieve (file_id citation)]) rest)
          | inl _ => None
          end
      | None => resolved w h rest
      end
  end.

(** The reference lines for the annotations from position [index] on, given
    the file names of those that cite a file. *)
Fixpoint reference_lines (index : nat) (todo : list annotation_obj)
    (names : list str) : list str :=
  match todo with
  | [] => []
  | a :: rest =>
      match file_citation a, names with
      | Some _, name :: names' =>
          (marker index ++ lit " " ++ name)
            :: reference_lines (S index) rest names'
      | Some _, [] => []
      | None, _ => reference_lines (S index) rest names
      end
  end.

Definition cites_file (a : annotation_obj) : bool :=
  match file_citation a with
  | Some _ => true
  | None => false
  end.

Lemma annotate_cons (w : world) (index : nat) (a : annotation_obj)
    (rest : list annotation_obj) (value : str) (citations : list str)
    (h : list call) :
  annotate w index (a :: rest) value citations h
  = match file_citation a with
    | Some citation =>
        match w h (files_retrieve (file_id citation)) with
        | inr cited_file =>
            annotate w (S index) rest
              (str_replace (text a) (marker index) value)
              (citations
                 ++ [marker index ++ lit " " ++ filename cited_file])
              (h ++ [files_retrieve (file_id citation)])
        | inl e => (inl e, h ++ [files_retrieve (file_id citation)])
        end
    | None =>
        annotate w (S index) rest
          (str_replace (text a) (marker index) value) citations h
    end.
Proof.
  cbn [annotate]. destruct (file_citation a) as [citation|]; [|reflexivity].
  unfold bind, ext. now destruct (w h _).
Qed.

(** The loop returns exactly when every lookup does, and then leaves the
    rewritten value and one reference line per annotation that cites a
    file. *)
Lemma annotate_result (w : world) (todo : list annotation_obj) (index : nat)
    (value : str) (citations : list str) (h : list call) :
  match resolved w h todo with
  | Some names =>
      annotate w index todo value citations h
      = (inr (rewrite_value index (map text todo) value,
              citations ++ reference_lines index todo names),
         h ++ lookups todo) /\
      length names = length (filter cites_file todo)
  | None => exists e h', annotate w index todo value citations h = (inl e, h')
  end.
Proof.
  revert index value citations h.
  induction todo as [|a rest IH]; intros index value citations h.
  - cbn. now rewrite !app_nil_r.
  - rewrite annotate_cons. cbn [resolved map rewrite_value]. unfold lookups.
    cbn [flat_map reference_lines filter]. unfold cites_file at 1.
    destruct (file_citation a) as [citation|].
    + destruct (w h _) as [e|cited_file]; [now eauto|].
      specialize (IH (S index) (str_replace (text a) (marker index) value)
                    (citations
                       ++ [marker index ++ lit " " ++ filename cited_file])
                    (h ++ [files_retrieve (file_id citation)])).
      destruct (resolved w _ rest) as [names|]; [|exact IH].
      destruct IH as [-> L]. cbn [option_map length]. split; [|now rewrite L].
      f_equal; [|now rewrite <- app_assoc].
      f_equal. f_equal. now rewrite <- app_assoc.
    + specialize (IH (S index) (str_replace (text a) (marker index) value)
                    citations h).
      destruct (resolved w h rest) as [names|]; exact IH.
Qed.

Lemma reference_lines_length (todo : list annotation_obj) (index : nat)
    (names : list str) :
  length names = length (filter cites_file todo) ->
  length (reference_lines index todo names)
  = length (filter cites_file todo).
Proof.
  revert index names; induction todo as [|a rest IH]; intros index names L.
  - reflexivity.
  - cbn [reference_lines filter] in *. unfold cites_file in *.
    destruct (file_citation a).
    + destruct names as [|name names]; [discriminate|].
      cbn [length] in *. injection L as L. now rewrite IH.
    + now apply IH.
Qed.

(** C6.  When the first message of the run has no annotation, the answer
    is the raw text of the message followed by the blank line that
    introduces the reference section, and nothing behind it: no marker is
    put into the text, no reference line is added and no file is looked
    up. *)
Theorem no_annotations_verbatim (w : world) (question : str)
    (assistant : assistant_obj) (vector_store : vector_store_obj)
    (h h1 : list call) (message_content : text_obj) :
  first_answer w question assistant h = (inr message_content, h1) ->
  annotations message_content = [] ->
  execute_rag_pipeline w question assistant vector_store h
  = (inr (value message_content ++ [LF; LF]), h1).
Proof.
  intros H Hnone. rewrite execute_rag_pipeline_steps, H, Hnone.
  cbn [annotate ret]. unfold with_references. cbn [join].
  now rewrite app_nil_r.
Qed.

(** A run whose first message is [inbox_text]. *)
Definition inbox_of (t : text_obj) : list message_obj :=
  [{| content := [TextContentBlock t] |}].

Definition asked : str := lit "What is it?".
Definition demo_assistant : assistant_obj := {| assistant_id := lit "asst_1" |}.
Definition demo_store : vector_store_obj := {| vector_store_id := lit "vs_1" |}.

(** The three calls that fetch the first message, for the stand-in. *)
Definition demo_run : list call :=
  [threads_create (lit "user") asked;
   runs_create_and_poll (lit "thread_0") (lit "asst_1");
   messages_list (lit "thread_0") (lit "run_1")].

Definition plain_answer : text_obj :=
  {| value := lit "It is a test."; annotations := [] |}.

Lemma no_annotations_verbatim_witness :
  execute_rag_pipeline (stand_in demo_web never_down (inbox_of plain_answer))
    asked demo_assistant demo_store []
  = (inr (lit "It is a test." ++ [LF; LF]), demo_run).
Proof.
  exact (no_annotations_verbatim
           (stand_in demo_web never_down (inbox_of plain_answer))
           asked demo_assistant demo_store [] demo_run plain_answer
           eq_refl eq_refl).
Defined.


Lemma execute_rag_pipeline_inv (w : world) (question : str)
    (assistant : assistant_obj) (vector_store : vector_store_obj)
    (h h1 h2 : list call) (message_content : text_obj) (answer : str) :
  first_answer w question assistant h = (inr message_content, h1) ->
  execute_rag_pipeline w question assistant vector_store h
  = (inr answer, h2) ->
  exists names,
    resolved w h1 (annotations message_content) = Some names /\
    length names
    = length (filter cites_file (annotations message_content)) /\
    answer
    = with_references
        (rewrite_value 0 (map text (annotations message_content))
           (value message_content))
        (reference_lines 0 (annotations message_content) names) /\
    h2 = h1 ++ lookups (annotations message_content).
Proof.
  intros H Hrun. rewrite execute_rag_pipeline_steps, H in Hrun.
  pose proof (annotate_result w (annotations message_content) 0
                (value message_content) [] h1) as R.
  destruct (resolved w h1 (annotations message_content)) as [names|].
  - destruct R as [R L]. rewrite R in Hrun. injection Hrun as <- <-.
    now exists names.
  - destruct R as (e & h' & R). rewrite R in Hrun. discriminate.
Qed.


(** An answer in which one citation text occurs twice and the second
    annotation is not a file citation. *)
Definition cited_twice : text_obj :=
  {| value := lit "Alpha (s) beta (s)";
     annotations :=
       [{| text := lit "(s)";
           file_citation := Some {| file_id := lit "f1" |} |};
        {| text := lit "(s)"; file_citation := None |}] |}.

Definition cited_twice_world : world :=
  stand_in demo_web never_down (inbox_of cited_twice).

Lemma cited_twice_run :
  execute_rag_pipeline cited_twice_world asked demo_assistant demo_store []
  = (inr (lit "Alpha [0] beta [0]" ++ [LF; LF] ++ lit "[0] f1.md"),
     demo_run ++ [files_retrieve (lit "f1")]).
Proof. reflexivity. Qed.


(** The relation [replaced_all] holds of [str_replace] only. *)
Lemma replaced_all_unique (old new s out : str) :
  replaced_all old new s out -> out = str_replace old new s.
Proof.
  induction 1 as [s ->|s H|g rest out Hold Hfind _ IH].
  - reflexivity.
  - now rewrite str_replace_absent.
  - subst out. destruct old as [|a old]; [congruence|].
    change (str_replace (a :: old) new ?x)
      with (replace_from (a :: old) new 0 x).
    now rewrite replace_from_find.
Qed.

(** The texts are replaced one after the other, each everywhere in the
    string that the replacements before it have left. *)
Inductive rewritten_by : nat -> list str -> str -> str -> Prop :=
| rewritten_done (index : nat) (value : str) :
    rewritten_by index [] value value
| rewritten_step (index : nat) (t : str) (texts : list str)
    (value value1 value' : str) :
    replaced_all t (marker index) value value1 ->
    rewritten_by (S index) texts value1 value' ->
    rewritten_by index (t :: texts) value value'.

Lemma rewrite_value_rewritten (texts : list str) (index : nat) (value : str) :
  rewritten_by index texts value (rewrite_value index texts value).
Proof.
  revert index value; induction texts as [|t texts IH]; intros index value.
  - apply rewritten_done.
  - cbn [rewrite_value].
    apply rewritten_step with (value1 := str_replace t (marker index) value).
    + apply str_replace_all.
    + apply IH.
Qed.

(** C10.  In an answer that [execute_rag_pipeline] returns, the text before
    the reference section is what results from the raw text by taking the
    annotations in order and replacing, for the annotation at position [i],
    every occurrence of its text in the string as rewritten so far by the
    marker of [i] (an occurrence being the leftmost one, then the leftmost
    one behind it, and so on to the end of the string). *)
Theorem marker_replacement_is_global (w : world) (question : str)
    (assistant : assistant_obj) (vector_store : vector_store_obj)
    (h h1 h2 : list call) (message_content : text_obj) (answer : str) :
  first_answer w question assistant h = (inr message_content, h1) ->
  execute_rag_pipeline w question assistant vector_store h
  = (inr answer, h2) ->
  exists value' citations,
    answer = with_references value' citations /\
    rewritten_by 0 (map text (annotations message_content))
      (value message_content) value'.
Proof.
  intros H Hrun.
  destruct (execute_rag_pipeline_inv _ _ _ _ _ _ _ _ _ H Hrun)
    as (names & _ & _ & -> & _).
  do 2 eexists. split; [reflexivity|]. apply rewrite_value_rewritten.
Qed.

Lemma marker_replacement_is_global_witness :
  exists value' citations,
    lit "Alpha [0] beta [0]" ++ [LF; LF] ++ lit "[0] f1.md"
    = with_references value' citations /\
    rewritten_by 0 (map text (annotations cited_twice)) (value cited_twice)
      value'.
Proof.
  exact (marker_replacement_is_global cited_twice_world asked
           demo_assistant demo_store [] demo_run
           (demo_run ++ [files_retrieve (lit "f1")]) cited_twice
           (lit "Alpha [0] beta [0]" ++ [LF; LF] ++ lit "[0] f1.md")
           eq_refl eq_refl).
Defined.

(** *** Markers and reference lines, one per annotation *)

(** The scan of [str.count] for a non-empty [sub]. *)
Fixpoint count_from (sub : str) (skip : nat) (s : str) : nat :=
  match s with
  | [] => 0
  | c :: s' =>
      match skip with
      | S k => count_from sub k s'
      | O =>
          if starts_with sub s
          then S (count_from sub (length sub - 1) s')
          else count_from sub 0 s'
      end
  end.

(** [s.count(sub)]: the number of non-overlapping occurrences. *)
Definition count (sub s : str) : nat :=
  match sub with
  | [] => S (length s)
  | _ :: _ => count_from sub 0 s
  end.

(** The lines ["[i] name"] for the names, numbered from [index]. *)
Fixpoint numbered (index : nat) (names : list str) : list str :=
  match names with
  | [] => []
  | name :: rest =>
      (marker index ++ lit " " ++ name) :: numbered (S index) rest
  end.

(** The property as the specification words it, for [n] annotations whose
    files resolve to [names]: each of the markers [[0]] to [[n-1]] occurs
    exactly once in the rewritten text, in the order of the annotations,
    and the reference list is the [n] lines of a marker and its file
    name. *)
Definition spec_one_marker_and_line_each (n : nat) (names : list str)
    (value' : str) (citations' : list str) : Prop :=
  (forall i, i < n -> count (marker i) value' = 1) /\
  (forall i, S i < n ->
     exists p q, find (marker i) value' = Some p /\
                 find (marker (S i)) value' = Some q /\ p < q) /\
  length names = n /\
  citations' = numbered 0 names.

(** An answer as the annotations describe it: the text before the first
    annotated span, then each span with the text that follows it. *)
Definition raw_tail (spans : list (str * str)) : str :=
  flat_map (fun span => fst span ++ snd span) spans.

(** The same with the marker of its position in place of each span. *)
Fixpoint marked (index : nat) (spans : list (str * str)) : str :=
  match spans with
  | [] => []
  | span :: rest => marker index ++ snd span ++ marked (S index) rest
  end.

(** At the time the text of a span is replaced it occurs in the string at
    that span only: not before it in what has been rewritten, not behind
    it in what has not. *)
Fixpoint cited_once (index : nat) (head : str) (spans : list (str * str))
  : Prop :=
  match spans with
  | [] => True
  | span :: rest =>
      find (fst span) (head ++ fst span ++ snd span ++ raw_tail rest)
        = Some (length head) /\
      find (fst span) (snd span ++ raw_tail rest) = None /\
      cited_once (S index) (head ++ marker index ++ snd span) rest
  end.

Lemma rewrite_value_spans (spans : list (str * str)) (index : nat)
    (head : str) :
  cited_once index head spans ->
  rewrite_value index (map fst spans) (head ++ raw_tail spans)
  = head ++ marked index spans.
Proof.
  revert index head; induction spans as [|[t g] rest IH];
    intros index head H.
  - reflexivity.
  - cbn [cited_once fst snd] in H. destruct H as (Hhead & Htail & Hrest).
    cbn [map rewrite_value fst marked snd].
    unfold raw_tail in *. cbn [flat_map fst snd]. rewrite <- app_assoc.
    rewrite (str_replace_once _ _ _ _ Hhead Htail).
    specialize (IH (S index) (head ++ marker index ++ g) Hrest).
    rewrite <- !app_assoc in IH. exact IH.
Qed.

Lemma reference_lines_numbered (todo : list annotation_obj) (index : nat)
    (names : list str) :
  forallb cites_file todo = true ->
  length names = length todo ->
  reference_lines index todo names = numbered index names.
Proof.
  revert index names; induction todo as [|a rest IH];
    intros index [|name names] Hall L; try discriminate; [reflexivity|].
  cbn [forallb] in Hall. apply andb_true_iff in Hall as [Ha Hall].
  unfold cites_file in Ha. cbn [reference_lines numbered].
  destruct (file_citation a); [|discriminate].
  injection L as L. now rewrite IH.
Qed.

Lemma filter_all {A} (f : A -> bool) (l : list A) :
  forallb f l = true -> filter f l = l.
Proof.
  induction l as [|a l IH]; [reflexivity|]; cbn; intros H.
  apply andb_true_iff in H as [-> H]. now rewrite IH.
Qed.

(** C1, as the code has it.  When every annotation of the first message
    carries a [file_citation] and its file resolves, and the raw text is the
    annotated spans in order with text between them such that the text of
    each span, when it is replaced, occurs at its own span only, then the
    answer is the raw text with the span of the annotation at position [i]
    replaced by [[i]], followed by a blank line and as many reference lines
    as there are annotations, line [i] being [[i]], a space and the file
    name resolved for annotation [i]. *)
Theorem markers_and_lines_when_cited_once (w : world) (question : str)
    (assistant : assistant_obj) (vector_store : vector_store_obj)
    (h h1 : list call) (message_content : text_obj) (names : list str)
    (before : str) (spans : list (str * str)) :
  first_answer w question assistant h = (inr message_content, h1) ->
  forallb cites_file (annotations message_content) = true ->
  resolved w h1 (annotations message_content) = Some names ->
  map text (annotations message_content) = map fst spans ->
  value message_content = before ++ raw_tail spans ->
  cited_once 0 before spans ->
  execute_rag_pipeline w question assistant vector_store h
  = (inr (with_references (before ++ marked 0 spans) (numbered 0 names)),
     h1 ++ lookups (annotations message_content)) /\
  length (numbered 0 names) = length (annotations message_content) /\
  length names = length (annotations message_content).
Proof.
  intros H Hall Hnames Htexts Hraw Honce.
  pose proof (annotate_result w (annotations message_content) 0
                (value message_content) [] h1) as R.
  rewrite Hnames in R. destruct R as [R L].
  rewrite (filter_all _ _ Hall) in L.
  rewrite execute_rag_pipeline_steps, H, R.
  rewrite Htexts, Hraw, (rewrite_value_spans _ _ _ Honce).
  rewrite (reference_lines_numbered _ _ _ Hall L). cbn [app].
  repeat split; [|exact L].
  rewrite <- L. clear. generalize 0.
  induction names as [|name names IH]; intros n; [reflexivity|].
  cbn [numbered length]. now rewrite IH.
Qed.

(** An answer with two file citations, each text occurring once. *)
Definition cited_each_once : text_obj :=
  {| value := lit "Alpha (a) beta (b).";
     annotations :=
       [{| text := lit "(a)";
           file_citation := Some {| file_id := lit "f1" |} |};
        {| text := lit "(b)";
           file_citation := Some {| file_id := lit "f2" |} |}] |}.

Lemma markers_and_lines_when_cited_once_witness :
  execute_rag_pipeline
    (stand_in demo_web never_down (inbox_of cited_each_once))
    asked demo_assistant demo_store []
  = (inr (lit "Alpha [0] beta [1]." ++ [LF; LF]
            ++ lit "[0] f1.md" ++ [LF] ++ lit "[1] f2.md"),
     demo_run ++ [files_retrieve (lit "f1"); files_retrieve (lit "f2")]).
Proof.
  exact (proj1
    (markers_and_lines_when_cited_once
       (stand_in demo_web never_down (inbox_of cited_each_once))
       asked demo_assistant demo_store [] demo_run cited_each_once
       [lit "f1.md"; lit "f2.md"] (lit "Alpha ")
       [(lit "(a)", lit " beta "); (lit "(b)", lit ".")]
       eq_refl eq_refl eq_refl eq_refl eq_refl
       (conj eq_refl (conj eq_refl (conj eq_refl (conj eq_refl I)))))).
Defined.

(** C1 fails as worded: of two annotations with the same text, the second
    not a file citation, the first takes both occurrences, so that [[0]]
    stands twice and [[1]] nowhere, and there is one reference line for
    two annotations. *)
Lemma one_marker_and_line_each_counterexample :
  execute_rag_pipeline cited_twice_world asked demo_assistant demo_store []
  = (inr (with_references (lit "Alpha [0] beta [0]") [lit "[0] f1.md"]),
     demo_run ++ [files_retrieve (lit "f1")]) /\
  length (annotations cited_twice) = 2 /\
  count (marker 0) (lit "Alpha [0] beta [0]") = 2 /\
  count (marker 1) (lit "Alpha [0] beta [0]") = 0 /\
  forall names,
    ~ spec_one_marker_and_line_each 2 names (lit "Alpha [0] beta [0]")
        [lit "[0] f1.md"].
Proof.
  repeat split.
  intros names (Hcount & _). specialize (Hcount 0 (Nat.lt_0_2)).
  vm_compute in Hcount. discriminate.
Qed.

(** ** Request validation *)

Lemma as_str_list_strings (items : list json) (l : list str) :
  as_str_list items = Some l -> items = map JString l.
Proof.
  revert l; induction items as [|item items IH]; intros l H.
  - injection H as <-. reflexivity.
  - destruct item; try discriminate. cbn [as_str_list] in H.
    destruct (as_str_list items) as [l'|]; [|discriminate].
    injection H as <-. cbn [map]. now rewrite (IH l' eq_refl).
Qed.

(** C4.  A body whose [urls] member is the string [s] and a body whose
    [urls] member is the list of the one string [s] are both accepted and
    validate to the same request, with the one-element sequence of [s];
    so whatever the route function does, it does the same for both. *)
Theorem single_string_as_one_element_list (s : str)
    (members members' : list (str * json)) :
  member (lit "urls") members = Some (JString s) ->
  member (lit "urls") members' = Some (JArray [JString s]) ->
  URLRequest_validate (JObject members) = Some {| urls := [s] |} /\
  URLRequest_validate (JObject members')
  = URLRequest_validate (JObject members) /\
  forall (w : world) (h : list call),
    option_map (fun request => scrape_and_upsert w request h)
      (URLRequest_validate (JObject members'))
    = option_map (fun request => scrape_and_upsert w request h)
        (URLRequest_validate (JObject members)).
Proof.
  intros H H'.
  assert (URLRequest_validate (JObject members) = Some {| urls := [s] |})
    as E by (unfold URLRequest_validate; now rewrite H).
  assert (URLRequest_validate (JObject members') = Some {| urls := [s] |})
    as E' by (unfold URLRequest_validate; now rewrite H').
  rewrite E, E'. repeat split.
Qed.

Definition one_url : str := lit "https://example.com/a".

Lemma single_string_as_one_element_list_witness :
  URLRequest_validate (JObject [(lit "urls", JString one_url)])
  = Some {| urls := [one_url] |} /\
  URLRequest_validate (JObject [(lit "urls", JArray [JString one_url])])
  = URLRequest_validate (JObject [(lit "urls", JString one_url)]).
Proof.
  pose proof (single_string_as_one_element_list one_url
                [(lit "urls", JString one_url)]
                [(lit "urls", JArray [JString one_url])]
                eq_refl eq_refl) as (H1 & H2 & _).
  exact (conj H1 H2).
Defined.

(** The invariant as the specification words it: what validation accepts
    has a non-empty sequence of URLs. *)
Definition spec_urls_non_empty (body : json) : Prop :=
  forall request, URLRequest_validate body = Some request ->
                  urls request <> [].

Definition empty_batch : json := JObject [(lit "urls", JArray [])].

(** C7 fails as worded: a body with an empty list is accepted, and the
    route function scrapes nothing, writes an empty document and has it
    indexed. *)
Lemma urls_non_empty_counterexample :
  URLRequest_validate empty_batch = Some {| urls := [] |} /\
  ~ spec_urls_non_empty empty_batch /\
  scrape_and_upsert (stand_in demo_web never_down []) {| urls := [] |} []
  = (inr {| message :=
              lit "Successfully scraped content from 0 URLs and created assistant and vector store.";
            response_assistant_id := lit "asst_4";
            response_vector_store_id := lit "vs_5" |},
     fetches []
       ++ [temp_file; temp_file_write (lit "/tmp/tmp2.md") []]
       ++ assembly_plan (lit "/tmp/tmp2.md") (lit "asst_4") (lit "vs_5")).
Proof.
  split; [reflexivity|split; [|reflexivity]].
  intros H. now apply (H {| urls := [] |}).
Qed.

(** C7, as the code has it.  What validation accepts is an object whose
    [urls] member is a string or a list of strings, and the request has the
    sequence of these strings in their order: the one string, or the items
    of the list; it is empty exactly when the list is. *)
Theorem validated_urls_are_the_given_strings (body : json)
    (request : URLRequest) :
  URLRequest_validate body = Some request ->
  exists members v,
    body = JObject members /\
    member (lit "urls") members = Some v /\
    (v = JString (hd [] (urls request)) /\ length (urls request) = 1 \/
     v = JArray (map JString (urls request))) /\
    (urls request = [] <-> v = JArray []).
Proof.
  intros H. destruct body as [| | | |items|members]; try discriminate.
  cbn [URLRequest_validate] in H.
  destruct (member (lit "urls") members) as [v|] eqn:Hv; [|discriminate].
  exists members, v. split; [reflexivity|]. split; [exact Hv|]. clear Hv.
  destruct v as [| | |s|items|]; try discriminate; cbn in H.
  - injection H as <-. cbn. split; [now left|]. split; discriminate.
  - destruct (as_str_list items) as [l|] eqn:E; [|discriminate].
    injection H as <-. cbn [urls ensure_list].
    rewrite (as_str_list_strings _ _ E). split; [now right|].
    split; [now intros ->|].
    destruct l; [reflexivity|discriminate].
Qed.

Lemma validated_urls_are_the_given_strings_witness :
  exists members v,
    JObject [(lit "urls", JArray [JString one_url; JString (lit "b")])]
    = JObject members /\
    member (lit "urls") members = Some v /\
    (v = JString (hd [] [one_url; lit "b"]) /\
     length [one_url; lit "b"] = 1 \/
     v = JArray (map JString [one_url; lit "b"])) /\
    ([one_url; lit "b"] = [] <-> v = JArray []).
Proof.
  exact (validated_urls_are_the_given_strings
           (JObject [(lit "urls", JArray [JString one_url; JString (lit "b")])])
           {| urls := [one_url; lit "b"] |} eq_refl).
Defined.

(** * Further properties of the code *)

(** ** The cleanup only deletes *)

(** [a] is [b] with some characters left out. *)
Inductive subseq : str -> str -> Prop :=
| subseq_nil : subseq [] []
| subseq_keep (c : ascii) (a b : str) : subseq a b -> subseq (c :: a) (c :: b)
| subseq_drop (c : ascii) (a b : str) : subseq a b -> subseq a (c :: b).

Lemma subseq_trans (a b c : str) : subseq a b -> subseq b c -> subseq a c.
Proof.
  intros Hab Hbc; revert a Hab.
  induction Hbc as [|x b c _ IH|x b c _ IH]; intros a Hab.
  - exact Hab.
  - inversion Hab as [|y a' b' H|y a' b' H]; subst.
    + apply subseq_keep. now apply IH.
    + apply subseq_drop. now apply IH.
  - apply subseq_drop. now apply IH.
Qed.

Lemma subseq_length (a b : str) : subseq a b -> length a <= length b.
Proof. induction 1; simpl; lia. Qed.

Lemma sub_from_subseq (p : regex) (s : str) (skip : nat) :
  subseq (sub_from p [] skip s) s.
Proof.
  revert skip; induction s as [|c s IH]; intros skip.
  - simpl. destruct (match_here p []); constructor.
  - destruct skip as [|k]; cbn [sub_from].
    + destruct (match_here p (c :: s)) as [[|n]|]; cbn [app].
      * apply subseq_keep, IH.
      * apply subseq_drop, IH.
      * apply subseq_keep, IH.
    + apply subseq_drop, IH.
Qed.

(** X1.  Whatever the crawled text is, the cleaned text is that text with
    some characters left out: nothing is inserted, changed or reordered, and
    the cleaned text is no longer than the crawled one. *)
Theorem clean_only_deletes (content : str) :
  subseq (clean content) content /\ length (clean content) <= length content.
Proof.
  assert (subseq (clean content) content) as H.
  { rewrite clean_eq.
    apply subseq_trans with (b := re_sub subscribe_pattern [] content);
      apply sub_from_subseq. }
  split; [exact H|now apply subseq_length].
Qed.

Lemma find_none_skipn (sub s : str) (k : nat) :
  find sub s = None -> find sub (skipn k s) = None.
Proof.
  intros H. apply find_none_suffix with (a := firstn k s).
  now rewrite firstn_skipn.
Qed.

Lemma re_search_unclosed (a b s : str) :
  a <> [] -> find b s = None -> re_search (bracket a b) s = None.
Proof.
  intros Ha H. rewrite re_search_bracket by assumption.
  destruct (find a s) as [i|]; [|reflexivity].
  now rewrite (find_none_skipn b s (i + length a) H).
Qed.

(** X2.  A text in which neither closing phrase occurs comes out of the
    cleanup unchanged, also when an opening phrase occurs in it: boilerplate
    that is cut short is kept. *)
Theorem clean_keeps_unclosed (content : str) :
  find subscribe_closing content = None ->
  find banner_closing content = None ->
  clean content = content.
Proof.
  intros H1 H2. rewrite clean_eq.
  rewrite subscribe_pattern_bracket, banner_pattern_bracket.
  rewrite (re_sub_none _ content) by (now apply re_search_unclosed).
  apply re_sub_none. now apply re_search_unclosed.
Qed.

Definition cut_short : str :=
  lit "Skip to content Menu ##  Subscribe to our emails and then nothing".

Lemma clean_keeps_unclosed_witness :
  find banner_opening cut_short = Some 0 /\ clean cut_short = cut_short.
Proof.
  split; [reflexivity|].
  exact (clean_keeps_unclosed cut_short eq_refl eq_refl).
Defined.

(** ** Markers *)

Lemma lit_inj (s s' : string) : lit s = lit s' -> s = s'.
Proof.
  unfold lit; intros H.
  rewrite <- (string_of_list_ascii_of_string s),
          <- (string_of_list_ascii_of_string s').
  now rewrite H.
Qed.

Lemma to_uint_not_nil (n : nat) : Nat.to_uint n <> Nil.
Proof.
  intros H. pose proof (DecimalNat.Unsigned.of_to n) as E.
  rewrite H in E. cbn in E. subst n. discriminate.
Qed.

Lemma str_of_nat_inj (i j : nat) : str_of_nat i = str_of_nat j -> i = j.
Proof.
  unfold str_of_nat; intros H%lit_inj.
  apply DecimalNat.Unsigned.to_uint_inj.
  pose proof (NilZero.usu (Nat.to_uint i) (to_uint_not_nil i)) as Ei.
  pose proof (NilZero.usu (Nat.to_uint j) (to_uint_not_nil j)) as Ej.
  rewrite H in Ei. rewrite Ei in Ej. now injection Ej.
Qed.

(** X3.  Annotations at different positions get different markers. *)
Theorem distinct_markers (i j : nat) : i <> j -> marker i <> marker j.
Proof.
  unfold marker; intros Hij H. apply Hij, str_of_nat_inj.
  apply app_inv_head in H. now apply app_inv_tail in H.
Qed.

Lemma distinct_markers_witness : marker 1 <> marker 10.
Proof. exact (distinct_markers 1 10 ltac:(discriminate)). Defined.

(** ** [list_to_string] *)

Lemma join_app (sep : str) (xs ys : list str) :
  xs <> [] -> ys <> [] ->
  join sep (xs ++ ys) = join sep xs ++ sep ++ join sep ys.
Proof.
  intros Hx Hy; induction xs as [|x xs IH]; [congruence|].
  destruct xs as [|x' xs].
  - cbn [app]. destruct ys; [congruence|reflexivity].
  - change (join sep ((x :: x' :: xs) ++ ys))
      with (x ++ sep ++ join sep ((x' :: xs) ++ ys)).
    rewrite IH by discriminate.
    change (join sep (x :: x' :: xs)) with (x ++ sep ++ join sep (x' :: xs)).
    now rewrite <- !app_assoc.
Qed.

Lemma join_length (sep : str) (parts : list str) :
  length (join sep parts)
  = list_sum (map (@length ascii) parts)
    + length sep * (length parts - 1).
Proof.
  induction parts as [|p parts IH]; [cbn; lia|].
  destruct parts as [|q parts].
  - cbn. lia.
  - change (join sep (p :: q :: parts))
      with (p ++ sep ++ join sep (q :: parts)).
    rewrite !length_app, IH. cbn [map list_sum length].
    rewrite !Nat.sub_succ, !Nat.sub_0_r, Nat.mul_succ_r.
    unfold list_sum. cbn [fold_right]. lia.
Qed.

(** X4.  [list_to_string] puts the separator between the items and nowhere
    else: the string for two non-empty lists one after the other is the
    string for the first, one separator and the string for the second, and
    the length of the result is the length of the items plus one separator
    for every item but the first. *)
Theorem list_to_string_concat (xs ys : list str) (sep : str) :
  xs <> [] -> ys <> [] ->
  list_to_string (xs ++ ys) sep
  = list_to_string xs sep ++ sep ++ list_to_string ys sep /\
  length (list_to_string (xs ++ ys) sep)
  = list_sum (map (@length ascii) (xs ++ ys))
    + length sep * (length (xs ++ ys) - 1).
Proof.
  intros Hx Hy. unfold list_to_string. split.
  - now apply join_app.
  - apply join_length.
Qed.

Lemma list_to_string_concat_witness :
  list_to_string ([lit "a"; lit "b"] ++ [lit "c"]) (lit ", ")
  = list_to_string [lit "a"; lit "b"] (lit ", ") ++ lit ", "
      ++ list_to_string [lit "c"] (lit ", ").
Proof.
  exact (proj1 (list_to_string_concat [lit "a"; lit "b"] [lit "c"] (lit ", ")
                  ltac:(discriminate) ltac:(discriminate))).
Defined.

(** ** Which calls a computation can make *)

(** From every history, [m] only adds calls that satisfy [P]. *)
Definition only (P : call -> bool) {A} (m : M A) : Prop :=
  forall h, exists new, snd (m h) = h ++ new /\ forallb P new = true.

Lemma only_ret (P : call -> bool) {A} (a : A) : only P (ret a).
Proof. intros h. exists []. now rewrite app_nil_r. Qed.

Lemma only_raise (P : call -> bool) {A} (e : exn) : only P (@raise A e).
Proof. intros h. exists []. now rewrite app_nil_r. Qed.

Lemma only_ext (P : call -> bool) (w : world) (c : call) :
  P c = true -> only P (ext w c).
Proof. intros Hc h. exists [c]. cbn. now rewrite Hc. Qed.

Lemma only_bind (P : call -> bool) {A B} (m : M A) (k : A -> M B) :
  only P m -> (forall a, only P (k a)) -> only P (bind m k).
Proof.
  intros Hm Hk h. unfold bind.
  destruct (Hm h) as (new & E & Hnew).
  destruct (m h) as [[e|a] h1]; cbn [snd] in *; subst h1.
  - now exists new.
  - destruct (Hk a (h ++ new)) as (new' & E' & Hnew').
    exists (new ++ new'). rewrite E', app_assoc, forallb_app.
    now rewrite Hnew, Hnew'.
Qed.

Lemma only_try (P : call -> bool) {A} (body : M A) (handler : exn -> M A) :
  only P body -> (forall e, only P (handler e)) ->
  only P (try_except body handler).
Proof.
  intros Hb Hh h. unfold try_except.
  destruct (Hb h) as (new & E & Hnew).
  destruct (body h) as [[e|a] h1]; cbn [snd] in *; subst h1.
  - destruct (Hh e (h ++ new)) as (new' & E' & Hnew').
    exists (new ++ new'). rewrite E', app_assoc, forallb_app.
    now rewrite Hnew, Hnew'.
  - now exists new.
Qed.

Lemma only_weaken (P Q : call -> bool) {A} (m : M A) :
  (forall c, P c = true -> Q c = true) -> only P m -> only Q m.
Proof.
  intros HPQ Hm h. destruct (Hm h) as (new & E & Hnew).
  exists new. split; [exact E|].
  rewrite forallb_forall in *. auto.
Qed.

Ltac only_call :=
  match goal with
  | |- only _ (ext ?w ?c) => apply (only_ext _ w c); reflexivity
  end.

Ltac only_steps :=
  repeat first
    [ apply only_ret | apply only_raise
    | only_call
    | apply only_bind; [|intros ?]
    | apply only_try; [|intros ?] ].

(** The calls to the crawler. *)
Definition is_crawl (c : call) : bool :=
  match c with
  | WebCrawler_init | crawler_warmup | crawler_run _ => true
  | _ => false
  end.

(** The calls that read from the hosted API or start a thread or a run on
    it. *)
Definition is_query (c : call) : bool :=
  match c with
  | assistants_retrieve _ | vector_stores_retrieve _ | threads_create _ _
  | runs_create_and_poll _ _ | messages_list _ _ | files_retrieve _ => true
  | _ => false
  end.

Lemma scrape_loop_only (w : world) (urls acc : list str) :
  only is_crawl (scrape_loop w urls acc).
Proof.
  revert acc; induction urls as [|url rest IH]; intros acc;
    cbn [scrape_loop]; only_steps. apply IH.
Qed.

Lemma scrape_urls_local_calls (w : world) (urls : list str)
    (h : list call) :
  exists new,
    snd (scrape_urls w urls h) = h ++ new /\
    forallb (fun c => is_crawl c || is_document c) new = true.
Proof.
  revert h. change (only (fun c => is_crawl c || is_document c)
                      (scrape_urls w urls)).
  unfold scrape_urls. only_steps.
  apply only_weaken with (P := is_crawl); [|apply scrape_loop_only].
  intros c ->. reflexivity.
Qed.

(** X5.  Whatever the crawler and the file system do, [scrape_urls] calls
    nothing but the crawler and the two file operations on the temporary
    file: it makes no call to the hosted API. *)
Theorem scrape_urls_stays_local (w : world) (urls : list str)
    (h : list call) :
  exists new,
    snd (scrape_urls w urls h) = h ++ new /\
    forallb (fun c => is_crawl c || is_document c) new = true /\
    forallb (fun c => negb (is_indexing c || is_query c || is_delete c)) new
    = true.
Proof.
  destruct (scrape_urls_local_calls w urls h) as (new & E & Hnew).
  exists new. split; [exact E|split; [exact Hnew|]].
  rewrite forallb_forall in *. intros c Hc. specialize (Hnew c Hc).
  now destruct c.
Qed.

Lemma annotate_only (w : world) (todo : list annotation_obj) (index : nat)
    (value : str) (citations : list str) :
  only is_query (annotate w index todo value citations).
Proof.
  revert index value citations; induction todo as [|a rest IH];
    intros index value citations; cbn [annotate]; [apply only_ret|].
  destruct (file_citation a); only_steps; apply IH.
Qed.

Lemma execute_rag_pipeline_only (w : world) (question : str)
    (assistant : assistant_obj) (vector_store : vector_store_obj) :
  only is_query (execute_rag_pipeline w question assistant vector_store).
Proof.
  unfold execute_rag_pipeline.
  apply only_bind; [only_call|intros thread].
  apply only_bind;
    [unfold file_search_of; destruct (tool_resources thread);
     [apply only_ret|apply only_raise]
    |intros printed].
  apply only_bind; [only_call|intros run].
  apply only_bind; [only_call|intros messages].
  apply only_bind;
    [destruct messages; [apply only_raise|apply only_ret]
    |intros first_message].
  apply only_bind;
    [destruct (content first_message); [apply only_raise|apply only_ret]
    |intros first_block].
  apply only_bind;
    [destruct first_block; [apply only_ret|apply only_raise]
    |intros message_content].
  apply only_bind; [apply annotate_only|].
  intros [value' citations']. apply only_ret.
Qed.

(** X6.  Whatever the hosted API does and however the request ends,
    [/ask_question] only retrieves the assistant and the vector store,
    creates a thread and a run, lists messages and retrieves files: it
    never crawls, writes a file, or creates, fills, updates or deletes an
    assistant, a vector store or a file. *)
Theorem ask_question_only_queries (w : world) (request : QuestionRequest)
    (assistant vector_store : str) (h : list call) :
  exists new,
    snd (ask_question w request assistant vector_store h) = h ++ new /\
    forallb is_query new = true /\
    forallb (fun c => negb (is_crawl c || is_document c || is_indexing c
                              || is_delete c)) new = true.
Proof.
  assert (only is_query (ask_question w request assistant vector_store)) as H.
  { unfold ask_question.
    apply only_try; [|intros e; apply only_raise].
    apply only_bind; [only_call|intros a].
    apply only_bind; [only_call|intros v].
    apply only_bind; [apply execute_rag_pipeline_only|].
    intros answer. apply only_ret. }
  destruct (H h) as (new & E & Hnew). exists new.
  split; [exact E|split; [exact Hnew|]].
  rewrite forallb_forall in *. intros c Hc. specialize (Hnew c Hc).
  now destruct c.
Qed.

Definition is_open (c : call) : bool :=
  match c with
  | open_rb _ => true
  | _ => false
  end.

Lemma create_assistant_and_vectorstore_only (w : world) (file_path : str) :
  only (fun c => is_open c || is_indexing c)
    (create_assistant_and_vectorstore w file_path).
Proof.
  unfold create_assistant_and_vectorstore.
  repeat (apply only_bind; [only_call|intros ?]).
  apply only_ret.
Qed.

(** X7.  Whatever the outside does and however the request ends,
    [/scrape_and_upsert] only crawls, creates and writes the temporary file,
    opens it, and creates, fills and updates the assistant and the vector
    store: it never deletes anything, neither after a success nor after a
    failure, and never starts a thread or a run. *)
Theorem scrape_and_upsert_never_deletes (w : world) (request : URLRequest)
    (h : list call) :
  exists new,
    snd (scrape_and_upsert w request h) = h ++ new /\
    forallb (fun c => is_crawl c || is_document c || is_open c
                        || is_indexing c) new = true /\
    forallb (fun c => negb (is_delete c || is_query c)) new = true.
Proof.
  assert (only (fun c => is_crawl c || is_document c || is_open c
                           || is_indexing c)
            (scrape_and_upsert w request)) as H.
  { unfold scrape_and_upsert.
    apply only_try; [|intros e; apply only_raise].
    apply only_bind; [|intros md_file_path; apply only_bind].
    - apply only_weaken with (P := fun c => is_crawl c || is_document c).
      + intros c Hc. now destruct c.
      + intros h0. apply scrape_urls_local_calls.
    - apply only_weaken with (P := fun c => is_open c || is_indexing c).
      + intros c Hc. now destruct c.
      + apply create_assistant_and_vectorstore_only.
    - intros [assistant vector_store]. apply only_ret. }
  destruct (H h) as (new & E & Hnew). exists new.
  split; [exact E|split; [exact Hnew|]].
  rewrite forallb_forall in *. intros c Hc. specialize (Hnew c Hc).
  now destruct c.
Qed.

(** ** [/ask_question] *)

(** X8.  When the assistant or the vector store of the request cannot be
    retrieved, [/ask_question] ends with a server error that carries the
    text of the exception, and the failing retrieval is the last call: no
    thread is created for an identifier the hosted API does not accept. *)
Theorem ask_question_unknown_identifier (w : world)
    (request : QuestionRequest) (assistant vector_store : str)
    (h : list call) (e : exn) :
  (w h (assistants_retrieve assistant) = inl e ->
   ask_question w request assistant vector_store h
   = (inl (HTTPException 500 (exn_str e)),
      h ++ [assistants_retrieve assistant])) /\
  (forall found,
     w h (assistants_retrieve assistant) = inr found ->
     w (h ++ [assistants_retrieve assistant])
       (vector_stores_retrieve vector_store) = inl e ->
     ask_question w request assistant vector_store h
     = (inl (HTTPException 500 (exn_str e)),
        h ++ [assistants_retrieve assistant;
              vector_stores_retrieve vector_store])).
Proof.
  split.
  - intros H. unfold ask_question, try_except.
    now rewrite (bind_ext_fail _ _ _ _ _ H).
  - intros found H H'. unfold ask_question, try_except.
    rewrite (bind_ext_ok _ _ _ _ _ H), (bind_ext_fail _ _ _ _ _ H').
    now rewrite <- app_assoc.
Qed.

(** The vector store of the request is not known to the hosted API. *)
Definition store_unknown (h : list call) (c : call) : bool :=
  match c with
  | vector_stores_retrieve _ => true
  | _ => false
  end.

Lemma ask_question_unknown_identifier_witness :
  ask_question (stand_in demo_web store_unknown (inbox_of plain_answer))
    {| question := asked |} (lit "asst_1") (lit "vs_9") []
  = (inl (HTTPException 500 (lit "service unavailable")),
     [assistants_retrieve (lit "asst_1");
      vector_stores_retrieve (lit "vs_9")]).
Proof.
  exact (proj2
    (ask_question_unknown_identifier
       (stand_in demo_web store_unknown (inbox_of plain_answer))
       {| question := asked |} (lit "asst_1") (lit "vs_9") [] unavailable)
    {| assistant_id := lit "asst_1" |} eq_refl eq_refl).
Defined.

(** X9.  Once both identifiers are retrieved, [/ask_question] is the query
    pipeline run with the assistant object that was retrieved: its answer
    becomes the body of the response, its exception a server error with the
    text of the exception, and no call is made after it. *)
Theorem ask_question_wraps_pipeline (w : world) (request : QuestionRequest)
    (assistant vector_store : str) (h : list call)
    (found : assistant_obj) (store : vector_store_obj) :
  w h (assistants_retrieve assistant) = inr found ->
  w (h ++ [assistants_retrieve assistant])
    (vector_stores_retrieve vector_store) = inr store ->
  ask_question w request assistant vector_store h
  = match execute_rag_pipeline w (question request) found store
            (h ++ [assistants_retrieve assistant;
                   vector_stores_retrieve vector_store]) with
    | (inr text, h') => (inr {| answer := text |}, h')
    | (inl e, h') => (inl (HTTPException 500 (exn_str e)), h')
    end.
Proof.
  intros H H'. unfold ask_question, try_except.
  rewrite (bind_ext_ok _ _ _ _ _ H), (bind_ext_ok _ _ _ _ _ H').
  rewrite <- app_assoc. cbn [app]. unfold bind at 1.
  now destruct (execute_rag_pipeline _ _ _ _ _) as [[e|text] h'].
Qed.

Lemma ask_question_wraps_pipeline_witness :
  ask_question (stand_in demo_web never_down (inbox_of plain_answer))
    {| question := asked |} (lit "asst_1") (lit "vs_1") []
  = (inr {| answer := lit "It is a test." ++ [LF; LF] |},
     [assistants_retrieve (lit "asst_1");
      vector_stores_retrieve (lit "vs_1");
      threads_create (lit "user") asked;
      runs_create_and_poll (lit "thread_2") (lit "asst_1");
      messages_list (lit "thread_2") (lit "run_3")]).
Proof.
  exact (ask_question_wraps_pipeline
           (stand_in demo_web never_down (inbox_of plain_answer))
           {| question := asked |} (lit "asst_1") (lit "vs_1") []
           demo_assistant demo_store eq_refl eq_refl).
Defined.

(** ** The first message *)

(** [messages[0].content[0].text] *)
Definition first_text (messages : list message_obj) : exn + text_obj :=
  match messages with
  | [] => inl (Exception (lit "list index out of range"))
  | first_message :: _ =>
      match content first_message with
      | [] => inl (Exception (lit "list index out of range"))
      | TextContentBlock t :: _ => inr t
      | ImageFileContentBlock :: _ =>
          inl (Exception
                 (lit "'ImageFileContentBlock' object has no attribute 'text'"))
      end
  end.

(** The calls that fetch the messages of a run. *)
Definition run_calls (question : str) (assistant : assistant_obj)
    (thread : thread_obj) (run : run_obj) : list call :=
  [threads_create (lit "user") question;
   runs_create_and_poll (thread_id thread) (assistant_id assistant);
   messages_list (thread_id thread) (run_id run)].

Lemma first_answer_first_text (w : world) (question : str)
    (assistant : assistant_obj) (h : list call) (thread : thread_obj)
    (run : run_obj) (messages : list message_obj) :
  w h (threads_create (lit "user") question) = inr thread ->
  tool_resources thread <> None ->
  w (h ++ [threads_create (lit "user") question])
    (runs_create_and_poll (thread_id thread) (assistant_id assistant))
  = inr run ->
  w (h ++ [threads_create (lit "user") question;
           runs_create_and_poll (thread_id thread) (assistant_id assistant)])
    (messages_list (thread_id thread) (run_id run)) = inr messages ->
  first_answer w question assistant h
  = (first_text messages, h ++ run_calls question assistant thread run).
Proof.
  intros Ht Hres Hr Hm. unfold first_answer.
  rewrite (bind_ext_ok _ _ _ _ _ Ht).
  unfold file_search_of at 1.
  destruct (tool_resources thread) as [resources|]; [|congruence].
  unfold bind at 1, ret at 1.
  rewrite (bind_ext_ok _ _ _ _ _ Hr).
  rewrite <- app_assoc. cbn [app].
  rewrite (bind_ext_ok _ _ _ _ _ Hm). rewrite <- app_assoc. cbn [app].
  unfold run_calls, first_text.
  destruct messages as [|first_message rest]; [reflexivity|].
  cbn [first_item]. unfold bind at 1, ret at 1.
  destruct (content first_message) as [|[t|] blocks]; reflexivity.
Qed.

(** X10.  When the thread has its [tool_resources] and the run has no
    message, or its first message no content block, or a first content
    block that is not text, the pipeline raises (the index or attribute
    error of Python) right after listing the messages, without looking up a
    file; text in a later message or a later block is not used. *)
Theorem pipeline_needs_first_text (w : world) (question : str)
    (assistant : assistant_obj) (vector_store : vector_store_obj)
    (h : list call) (thread : thread_obj) (run : run_obj)
    (messages : list message_obj) (e : exn) :
  w h (threads_create (lit "user") question) = inr thread ->
  tool_resources thread <> None ->
  w (h ++ [threads_create (lit "user") question])
    (runs_create_and_poll (thread_id thread) (assistant_id assistant))
  = inr run ->
  w (h ++ [threads_create (lit "user") question;
           runs_create_and_poll (thread_id thread) (assistant_id assistant)])
    (messages_list (thread_id thread) (run_id run)) = inr messages ->
  first_text messages = inl e ->
  execute_rag_pipeline w question assistant vector_store h
  = (inl e, h ++ run_calls question assistant thread run).
Proof.
  intros Ht Hres Hr Hm He.
  rewrite execute_rag_pipeline_steps.
  now rewrite (first_answer_first_text _ _ _ _ _ _ _ Ht Hres Hr Hm), He.
Qed.

(** A run whose first message holds an image and whose second message
    holds text. *)
Definition image_first : list message_obj :=
  [{| content := [ImageFileContentBlock; TextContentBlock plain_answer] |};
   {| content := [TextContentBlock plain_answer] |}].

Lemma pipeline_needs_first_text_witness :
  execute_rag_pipeline (stand_in demo_web never_down image_first)
    asked demo_assistant demo_store []
  = (inl (Exception
            (lit "'ImageFileContentBlock' object has no attribute 'text'")),
     demo_run).
Proof.
  exact (pipeline_needs_first_text
           (stand_in demo_web never_down image_first)
           asked demo_assistant demo_store []
           {| thread_id := lit "thread_0";
              tool_resources := Some {| file_search := None |} |}
           {| run_id := lit "run_1" |}
           image_first _ eq_refl ltac:(discriminate) eq_refl eq_refl
           eq_refl).
Defined.

(** ** File lookups *)

Lemma lookups_app (xs ys : list annotation_obj) :
  lookups (xs ++ ys) = lookups xs ++ lookups ys.
Proof. unfold lookups. apply flat_map_app. Qed.

Lemma snoc_app {A} (l : list A) (x : A) (r : list A) :
  l ++ x :: r = (l ++ [x]) ++ r.
Proof. now rewrite <- app_assoc. Qed.

Lemma annotate_fail (w : world) (before after : list annotation_obj)
    (a : annotation_obj) (citation : file_citation_obj) (names : list str)
    (e : exn) (index : nat) (value : str) (citations : list str)
    (h : list call) :
  resolved w h before = Some names ->
  file_citation a = Some citation ->
  w (h ++ lookups before) (files_retrieve (file_id citation)) = inl e ->
  annotate w index (before ++ a :: after) value citations h
  = (inl e, h ++ lookups before ++ [files_retrieve (file_id citation)]).
Proof.
  revert names index value citations h.
  induction before as [|b before IH];
    intros names index value citations h Hnames Ha He.
  - cbn [app lookups flat_map] in *. rewrite app_nil_r in He.
    rewrite annotate_cons, Ha.
    change (reply_of (files_retrieve (file_id citation))) with file_obj in *.
    now rewrite He.
  - cbn [app]. rewrite annotate_cons. cbn [resolved] in Hnames.
    unfold lookups in *. cbn [flat_map] in *.
    destruct (file_citation b) as [cb|].
    + destruct (w h (files_retrieve (file_id cb))) as [e'|f]; [discriminate|].
      destruct (resolved w _ before) as [names'|] eqn:E; [|discriminate].
      cbn [app] in He. rewrite (snoc_app h) in He.
      rewrite (IH _ _ _ _ _ E Ha He). now rewrite <- !app_assoc.
    + cbn [app] in *. now apply (IH names).
Qed.

(** X11.  When the lookup of a cited file raises, the pipeline raises that
    exception and returns no answer, although the text of the answer is at
    hand; the lookups for the annotations before it were made, in order,
    and none is made after it. *)
Theorem failed_lookup_loses_answer (w : world) (question : str)
    (assistant : assistant_obj) (vector_store : vector_store_obj)
    (h h1 : list call) (message_content : text_obj)
    (before after : list annotation_obj) (a : annotation_obj)
    (citation : file_citation_obj) (names : list str) (e : exn) :
  first_answer w question assistant h = (inr message_content, h1) ->
  annotations message_content = before ++ a :: after ->
  resolved w h1 before = Some names ->
  file_citation a = Some citation ->
  w (h1 ++ lookups before) (files_retrieve (file_id citation)) = inl e ->
  execute_rag_pipeline w question assistant vector_store h
  = (inl e, h1 ++ lookups before ++ [files_retrieve (file_id citation)]).
Proof.
  intros H Hanns Hnames Ha He.
  rewrite execute_rag_pipeline_steps, H, Hanns.
  now rewrite (annotate_fail w before after a citation names e 0 _ []
                 h1 Hnames Ha He).
Qed.

(** The file of the second citation cannot be retrieved. *)
Definition second_file_gone (h : list call) (c : call) : bool :=
  match c with
  | files_retrieve file => str_eqb file (lit "f2")
  | _ => false
  end.

Lemma failed_lookup_loses_answer_witness :
  execute_rag_pipeline
    (stand_in demo_web second_file_gone (inbox_of cited_each_once))
    asked demo_assistant demo_store []
  = (inl unavailable,
     demo_run ++ [files_retrieve (lit "f1"); files_retrieve (lit "f2")]).
Proof.
  exact (failed_lookup_loses_answer
           (stand_in demo_web second_file_gone (inbox_of cited_each_once))
           asked demo_assistant demo_store [] demo_run cited_each_once
           [{| text := lit "(a)";
               file_citation := Some {| file_id := lit "f1" |} |}]
           []
           {| text := lit "(b)";
              file_citation := Some {| file_id := lit "f2" |} |}
           {| file_id := lit "f2" |} [lit "f1.md"] unavailable
           eq_refl eq_refl eq_refl eq_refl eq_refl).
Defined.

Lemma rewrite_value_absent (texts : list str) (index : nat) (value : str) :
  Forall (fun t => find t value = None) texts ->
  rewrite_value index texts value = value.
Proof.
  revert index; induction texts as [|t texts IH]; intros index H.
  - reflexivity.
  - inversion H as [|? ? Ht Hrest]; subst. cbn [rewrite_value].
    rewrite (str_replace_absent _ _ _ Ht). now apply IH.
Qed.

(** X12.  When the text of no annotation occurs in the raw answer, the
    answer text is returned as it is, without any marker, and the reference
    lines of the annotations that cite a file are appended all the same. *)
Theorem absent_texts_keep_references (w : world) (question : str)
    (assistant : assistant_obj) (vector_store : vector_store_obj)
    (h h1 : list call) (message_content : text_obj) (names : list str) :
  first_answer w question assistant h = (inr message_content, h1) ->
  resolved w h1 (annotations message_content) = Some names ->
  Forall (fun a => find (text a) (value message_content) = None)
    (annotations message_content) ->
  execute_rag_pipeline w question assistant vector_store h
  = (inr (with_references (value message_content)
            (reference_lines 0 (annotations message_content) names)),
     h1 ++ lookups (annotations message_content)) /\
  length (reference_lines 0 (annotations message_content) names)
  = length (filter cites_file (annotations message_content)).
Proof.
  intros H Hnames Habsent.
  pose proof (annotate_result w (annotations message_content) 0
                (value message_content) [] h1) as R.
  rewrite Hnames in R. destruct R as [R L].
  rewrite execute_rag_pipeline_steps, H, R. cbn [app].
  rewrite rewrite_value_absent.
  - split; [reflexivity|now apply reference_lines_length].
  - apply Forall_map with (f := text)
        (P := fun t => find t (value message_content) = None).
    exact Habsent.
Qed.

(** An answer whose citation text is not in it. *)
Definition cited_elsewhere : text_obj :=
  {| value := lit "Alpha beta.";
     annotations :=
       [{| text := lit "(a)";
           file_citation := Some {| file_id := lit "f1" |} |}] |}.

Lemma absent_texts_keep_references_witness :
  execute_rag_pipeline
    (stand_in demo_web never_down (inbox_of cited_elsewhere))
    asked demo_assistant demo_store []
  = (inr (lit "Alpha beta." ++ [LF; LF] ++ lit "[0] f1.md"),
     demo_run ++ [files_retrieve (lit "f1")]).
Proof.
  refine (proj1
    (absent_texts_keep_references
       (stand_in demo_web never_down (inbox_of cited_elsewhere))
       asked demo_assistant demo_store [] demo_run cited_elsewhere
       [lit "f1.md"] eq_refl eq_refl _)).
  repeat constructor.
Defined.

(** ** What a success of [/scrape_and_upsert] implies *)

Lemma scrape_loop_none (w : world) (urls acc : list str) (h : list call) :
  crawled w h urls = None ->
  exists e h', scrape_loop w urls acc h = (inl e, h').
Proof.
  revert acc h; induction urls as [|url rest IH]; intros acc h H.
  - discriminate.
  - rewrite scrape_loop_cons. cbn [crawled] in H.
    destruct (w h (crawler_run url)) as [e|result]; [now eauto|].
    destruct (crawled w (h ++ [crawler_run url]) rest) eqn:E;
      [discriminate|].
    now apply IH.
Qed.

Lemma scrape_urls_inv (w : world) (batch : list str) (h h1 : list call)
    (path : str) :
  scrape_urls w batch h = (inr path, h1) ->
  exists pages,
    crawled w (h ++ [WebCrawler_init; crawler_warmup]) batch = Some pages /\
    h1 = h ++ fetches batch
           ++ [temp_file;
               temp_file_write path (join separator (map clean pages))].
Proof.
  unfold scrape_urls; intros H.
  destruct (w h WebCrawler_init) as [e|[]] eqn:Hinit;
    [now rewrite (bind_ext_fail _ _ _ _ _ Hinit) in H|].
  rewrite (bind_ext_ok _ _ _ _ _ Hinit) in H.
  destruct (w (h ++ [WebCrawler_init]) crawler_warmup) as [e|[]] eqn:Hwarm;
    [now rewrite (bind_ext_fail _ _ _ _ _ Hwarm) in H|].
  rewrite (bind_ext_ok _ _ _ _ _ Hwarm) in H.
  rewrite <- app_assoc in H. cbn [app] in H.
  destruct (crawled w (h ++ [WebCrawler_init; crawler_warmup]) batch)
    as [pages|] eqn:Hpages.
  - rewrite (bind_ok _ _ _ _ _ (scrape_loop_ok w _ [] _ _ Hpages)) in H.
    cbn [app] in H. fold temp_file in H.
    destruct (w ((h ++ [WebCrawler_init; crawler_warmup])
                   ++ map crawler_run batch) temp_file)
      as [e|name] eqn:Hfile;
      [now rewrite (bind_ext_fail _ _ _ _ _ Hfile) in H|].
    rewrite (bind_ext_ok _ _ _ _ _ Hfile) in H.
    match type of H with bind (ext _ ?c) _ ?h2 = _ =>
      destruct (w h2 c) as [e|[]] eqn:Hwrite end;
      [now rewrite (bind_ext_fail _ _ _ _ _ Hwrite) in H|].
    rewrite (bind_ext_ok _ _ _ _ _ Hwrite) in H.
    unfold ret in H. injection H as <- <-.
    exists pages. split; [reflexivity|].
    unfold fetches. now flatten_history.
  - destruct (scrape_loop_none w batch [] _ Hpages) as (e & h' & E).
    now rewrite (bind_fail _ _ _ _ _ E) in H.
Qed.

(** The first call of corpus assembly. *)
Definition create_call : call :=
  assistants_create (lit "Question-Answer Assistant") description
    instructions (lit "gpt-4o-mini") [lit "file_search"].

Lemma assembly_inv (w : world) (file_path : str) (h h' : list call)
    (assistant : assistant_obj) (vector_store : vector_store_obj) :
  create_assistant_and_vectorstore w file_path h
  = (inr (assistant, vector_store), h') ->
  exists created,
    w h create_call = inr created /\
    w (h ++ [create_call]) (vector_stores_create (lit "Scraped Content"))
    = inr vector_store /\
    h' = h ++ assembly_plan file_path (assistant_id created)
                (vector_store_id vector_store) /\
    answered w h
      (assembly_plan file_path (assistant_id created)
         (vector_store_id vector_store)) /\
    w (h ++ firstn 4
              (assembly_plan file_path (assistant_id created)
                 (vector_store_id vector_store)))
      (assistants_update (assistant_id created)
         [vector_store_id vector_store]) = inr assistant.
Proof.
  unfold create_assistant_and_vectorstore; intros H.
  match type of H with bind (ext _ ?c) _ _ = _ =>
    destruct (w h c) as [e1|a] eqn:E1 end;
    [now rewrite (bind_ext_fail _ _ _ _ _ E1) in H|].
  rewrite (bind_ext_ok _ _ _ _ _ E1) in H.
  match type of H with bind (ext _ ?c) _ ?h1 = _ =>
    destruct (w h1 c) as [e2|v] eqn:E2 end;
    [now rewrite (bind_ext_fail _ _ _ _ _ E2) in H|].
  rewrite (bind_ext_ok _ _ _ _ _ E2) in H.
  match type of H with bind (ext _ ?c) _ ?h1 = _ =>
    destruct (w h1 c) as [e3|f] eqn:E3 end;
    [now rewrite (bind_ext_fail _ _ _ _ _ E3) in H|].
  rewrite (bind_ext_ok _ _ _ _ _ E3) in H.
  match type of H with bind (ext _ ?c) _ ?h1 = _ =>
    destruct (w h1 c) as [e4|b] eqn:E4 end;
    [now rewrite (bind_ext_fail _ _ _ _ _ E4) in H|].
  rewrite (bind_ext_ok _ _ _ _ _ E4) in H.
  match type of H with bind (ext _ ?c) _ ?h1 = _ =>
    destruct (w h1 c) as [e5|a'] eqn:E5 end;
    [now rewrite (bind_ext_fail _ _ _ _ _ E5) in H|].
  rewrite (bind_ext_ok _ _ _ _ _ E5) in H.
  unfold ret in H. injection H as <- <- <-.
  exists a. unfold assembly_plan, create_call.
  cbn [answered firstn app].
  rewrite <- !app_assoc in *. cbn [app] in *.
  repeat split; eauto.
Qed.

(** X13.  When [create_assistant_and_vectorstore] returns, it has made its
    five calls and no other, in order and all answered: the file that is
    opened and uploaded is the one it was given, the vector store returned
    is the answer to the call that created the vector store, the upload
    goes into that vector store, that vector store is bound to the
    assistant just created, and the assistant returned is the answer to
    that last update. *)
Theorem assembly_success (w : world) (file_path : str) (h h' : list call)
    (assistant : assistant_obj) (vector_store : vector_store_obj) :
  create_assistant_and_vectorstore w file_path h
  = (inr (assistant, vector_store), h') ->
  exists created,
    w h create_call = inr created /\
    w (h ++ [create_call]) (vector_stores_create (lit "Scraped Content"))
    = inr vector_store /\
    h' = h ++ assembly_plan file_path (assistant_id created)
                (vector_store_id vector_store) /\
    answered w h
      (assembly_plan file_path (assistant_id created)
         (vector_store_id vector_store)) /\
    w (h ++ firstn 4
              (assembly_plan file_path (assistant_id created)
                 (vector_store_id vector_store)))
      (assistants_update (assistant_id created)
         [vector_store_id vector_store]) = inr assistant.
Proof. exact (assembly_inv w file_path h h' assistant vector_store). Qed.

Lemma assembly_success_witness :
  exists created,
    stand_in demo_web never_down [] [] create_call = inr created /\
    stand_in demo_web never_down [] [create_call]
      (vector_stores_create (lit "Scraped Content"))
    = inr {| vector_store_id := lit "vs_1" |} /\
    assembly_plan (lit "/tmp/t.md") (lit "asst_0") (lit "vs_1")
    = assembly_plan (lit "/tmp/t.md") (assistant_id created) (lit "vs_1").
Proof.
  destruct (assembly_success (stand_in demo_web never_down [])
              (lit "/tmp/t.md") []
              (assembly_plan (lit "/tmp/t.md") (lit "asst_0") (lit "vs_1"))
              {| assistant_id := lit "asst_0" |}
              {| vector_store_id := lit "vs_1" |} eq_refl)
    as (created & Hcreated & Hstore & Hplan & _).
  exists created. split; [exact Hcreated|split; [exact Hstore|exact Hplan]].
Defined.

(** X14.  A response of [/scrape_and_upsert] means that all of the work was
    done once and in order: the crawler was started, every URL of the
    request was fetched, in the order of the request and as often as it is
    listed, one temporary file was written with the cleaned pages joined by
    the separator, and the five calls of corpus assembly were made on that
    file; the identifiers of the response are those of the assistant as
    updated and of the vector store that was filled, and the message gives
    the number of URLs. *)
Theorem scrape_and_upsert_success (w : world) (request : URLRequest)
    (h h' : list call) (response : upsert_response) :
  scrape_and_upsert w request h = (inr response, h') ->
  exists pages path created updated,
    crawled w (h ++ [WebCrawler_init; crawler_warmup]) (urls request)
    = Some pages /\
    h' = h ++ fetches (urls request)
           ++ [temp_file;
               temp_file_write path (join separator (map clean pages))]
           ++ assembly_plan path created (response_vector_store_id response)
    /\
    w (h ++ fetches (urls request)
         ++ [temp_file;
             temp_file_write path (join separator (map clean pages))]
         ++ firstn 4
              (assembly_plan path created
                 (response_vector_store_id response)))
      (assistants_update created [response_vector_store_id response])
    = inr updated /\
    response_assistant_id response = assistant_id updated /\
    message response
    = lit "Successfully scraped content from "
        ++ str_of_nat (length (urls request))
        ++ lit " URLs and created assistant and vector store.".
Proof.
  unfold scrape_and_upsert, try_except; intros H.
  destruct (scrape_urls w (urls request) h) as [[e|path] h1] eqn:Hscrape.
  { rewrite (bind_fail _ _ _ _ _ Hscrape) in H. discriminate. }
  rewrite (bind_ok _ _ _ _ _ Hscrape) in H.
  destruct (create_assistant_and_vectorstore w path h1)
    as [[e|[updated store]] h2] eqn:Hassembly.
  { rewrite (bind_fail _ _ _ _ _ Hassembly) in H. discriminate. }
  rewrite (bind_ok _ _ _ _ _ Hassembly) in H.
  unfold ret in H. injection H as <- <-.
  destruct (scrape_urls_inv _ _ _ _ _ Hscrape) as (pages & Hpages & ->).
  destruct (assembly_inv _ _ _ _ _ _ Hassembly)
    as (created & _ & _ & -> & _ & Hupdate).
  exists pages, path, (assistant_id created), updated.
  cbn [response_vector_store_id response_assistant_id message].
  rewrite <- !app_assoc in *. repeat split; assumption.
Qed.

Lemma scrape_and_upsert_success_witness :
  exists pages path created updated,
    crawled (stand_in demo_web never_down [])
      [WebCrawler_init; crawler_warmup] [lit "a"] = Some pages /\
    fetches [lit "a"]
      ++ [temp_file; temp_file_write (lit "/tmp/tmp3.md") (lit "page of a")]
      ++ assembly_plan (lit "/tmp/tmp3.md") (lit "asst_5") (lit "vs_6")
    = fetches [lit "a"]
        ++ [temp_file;
            temp_file_write path (join separator (map clean pages))]
        ++ assembly_plan path created (lit "vs_6") /\
    lit "asst_5" = assistant_id updated.
Proof.
  destruct (scrape_and_upsert_success (stand_in demo_web never_down [])
              {| urls := [lit "a"] |} []
              (fetches [lit "a"]
                 ++ [temp_file;
                     temp_file_write (lit "/tmp/tmp3.md") (lit "page of a")]
                 ++ assembly_plan (lit "/tmp/tmp3.md") (lit "asst_5")
                      (lit "vs_6"))
              {| message :=
                   lit "Successfully scraped content from 1 URLs and created assistant and vector store.";
                 response_assistant_id := lit "asst_5";
                 response_vector_store_id := lit "vs_6" |}
              eq_refl)
    as (pages & path & created & updated & H1 & H2 & _ & H4 & _).
  exists pages, path, created, updated.
  split; [exact H1|split; [exact H2|exact H4]].
Defined.

(** ** Failures outside the fetch loop *)

(** X15.  When the crawler cannot be created or warmed up, [scrape_urls]
    raises that exception as it is (it is not turned into the
    ["Failed to scrape"] error, which is for fetches only), fetches no URL
    and writes no file; [/scrape_and_upsert] answers with a server error
    that carries the text of the exception. *)
Theorem crawler_start_failure (w : world) (batch : list str)
    (h started : list call) (e : exn) :
  w h WebCrawler_init = inl e /\ started = [WebCrawler_init] \/
  w h WebCrawler_init = inr tt /\
  w (h ++ [WebCrawler_init]) crawler_warmup = inl e /\
  started = [WebCrawler_init; crawler_warmup] ->
  scrape_urls w batch h = (inl e, h ++ started) /\
  scrape_and_upsert w {| urls := batch |} h
  = (inl (HTTPException 500 (exn_str e)), h ++ started).
Proof.
  intros H.
  assert (scrape_urls w batch h = (inl e, h ++ started)) as E.
  { unfold scrape_urls. destruct H as [[Hinit ->]|(Hinit & Hwarm & ->)].
    - now rewrite (bind_ext_fail _ _ _ _ _ Hinit).
    - rewrite (bind_ext_ok w WebCrawler_init tt _ h Hinit).
      rewrite (bind_ext_fail _ _ _ _ _ Hwarm). now rewrite <- app_assoc. }
  split; [exact E|].
  unfold scrape_and_upsert, try_except.
  now rewrite (bind_fail _ _ _ _ _ E).
Qed.

(** The crawler does not warm up. *)
Definition warmup_down (h : list call) (c : call) : bool :=
  match c with
  | crawler_warmup => true
  | _ => false
  end.

Lemma crawler_start_failure_witness :
  scrape_and_upsert (stand_in demo_web warmup_down [])
    {| urls := [lit "a"] |} []
  = (inl (HTTPException 500 (lit "service unavailable")),
     [WebCrawler_init; crawler_warmup]).
Proof.
  exact (proj2
    (crawler_start_failure (stand_in demo_web warmup_down []) [lit "a"] []
       [WebCrawler_init; crawler_warmup] unavailable
       (or_intror (conj eq_refl (conj eq_refl eq_refl))))).
Defined.

(** X16.  When all URLs are fetched but the temporary file cannot be
    created, or cannot be written, [scrape_urls] raises that exception and
    [/scrape_and_upsert] answers with a server error carrying its text; the
    failing file operation is the last call, so nothing is indexed. *)
Theorem document_failure_stops_indexing (w : world) (batch pages : list str)
    (h tried : list call) (e : exn) :
  w h WebCrawler_init = inr tt ->
  w (h ++ [WebCrawler_init]) crawler_warmup = inr tt ->
  crawled w (h ++ [WebCrawler_init; crawler_warmup]) batch = Some pages ->
  w (h ++ fetches batch) temp_file = inl e /\ tried = [temp_file] \/
  (exists path,
     w (h ++ fetches batch) temp_file = inr path /\
     w (h ++ fetches batch ++ [temp_file])
       (temp_file_write path (join separator (map clean pages))) = inl e /\
     tried = [temp_file;
              temp_file_write path (join separator (map clean pages))]) ->
  scrape_urls w batch h = (inl e, h ++ fetches batch ++ tried) /\
  scrape_and_upsert w {| urls := batch |} h
  = (inl (HTTPException 500 (exn_str e)), h ++ fetches batch ++ tried) /\
  forallb (fun c => negb (is_indexing c)) (fetches batch ++ tried) = true.
Proof.
  intros Hinit Hwarm Hpages H.
  assert (scrape_urls w batch h = (inl e, h ++ fetches batch ++ tried)) as E.
  { unfold scrape_urls.
    rewrite (bind_ext_ok w WebCrawler_init tt _ h Hinit).
    rewrite (bind_ext_ok w crawler_warmup tt _ _ Hwarm).
    flatten_history.
    rewrite (bind_ok _ _ _ _ _ (scrape_loop_ok w _ [] _ _ Hpages)).
    unfold fetches in *. rewrite <- !app_assoc in *. cbn [app] in *.
    destruct H as [[Hfile ->]|(path & Hfile & Hwrite & ->)].
    - rewrite (bind_ext_fail w temp_file e _ _ Hfile). now flatten_history.
    - rewrite (bind_ext_ok w temp_file path _ _ Hfile).
      rewrite <- !app_assoc. cbn [app].
      rewrite (bind_ext_fail w (temp_file_write _ _) e _ _ Hwrite).
      now flatten_history. }
  split; [exact E|split].
  - unfold scrape_and_upsert, try_except.
    now rewrite (bind_fail _ _ _ _ _ E).
  - destruct (scrape_urls_local_calls w batch h) as (new & Hnew & Hlocal).
    rewrite E in Hnew. cbn [snd] in Hnew. apply app_inv_head in Hnew.
    rewrite Hnew. rewrite forallb_forall in *.
    intros c Hc. specialize (Hlocal c Hc). now destruct c.
Qed.

(** The temporary file cannot be written. *)
Definition disk_full (h : list call) (c : call) : bool :=
  match c with
  | temp_file_write _ _ => true
  | _ => false
  end.

Lemma document_failure_stops_indexing_witness :
  scrape_and_upsert (stand_in demo_web disk_full []) {| urls := [lit "a"] |}
    []
  = (inl (HTTPException 500 (lit "service unavailable")),
     fetches [lit "a"]
       ++ [temp_file; temp_file_write (lit "/tmp/tmp3.md") (lit "page of a")]).
Proof.
  exact (proj1 (proj2
    (document_failure_stops_indexing (stand_in demo_web disk_full [])
       [lit "a"] [lit "page of a"] []
       [temp_file; temp_file_write (lit "/tmp/tmp3.md") (lit "page of a")]
       unavailable eq_refl eq_refl eq_refl
       (or_intror
          (ex_intro _ (lit "/tmp/tmp3.md")
             (conj eq_refl (conj eq_refl eq_refl))))))).
Defined.

(** ** Validation, both ways *)

Lemma as_str_list_map (l : list str) : as_str_list (map JString l) = Some l.
Proof.
  induction l as [|s l IH]; [reflexivity|].
  cbn [map as_str_list]. now rewrite IH.
Qed.

(** X17.  A body is accepted with the URLs [l] exactly when it is an
    object whose [urls] member is the one string of [l] or the list of the
    strings of [l]: a list of strings comes out as it went in, with its
    order and its repetitions, and a list that holds anything but strings,
    a number, a null or an object for [urls], a missing [urls] and a body
    that is no object are all rejected. *)
Theorem validation_accepts_exactly (body : json) (l : list str) :
  URLRequest_validate body = Some {| urls := l |} <->
  exists members,
    body = JObject members /\
    ((exists s, member (lit "urls") members = Some (JString s) /\ l = [s]) \/
     member (lit "urls") members = Some (JArray (map JString l))).
Proof.
  split.
  - intros H. destruct body as [| | | |items|members]; try discriminate.
    exists members. split; [reflexivity|].
    cbn [URLRequest_validate] in H.
    destruct (member (lit "urls") members) as [v|]; [|discriminate].
    destruct v as [| | |s|items|]; try discriminate; cbn in H.
    + injection H as <-. left. now exists s.
    + destruct (as_str_list items) as [l'|] eqn:E; [|discriminate].
      injection H as <-. right. now rewrite (as_str_list_strings _ _ E).
  - intros (members & -> & [(s & Hm & ->)|Hm]);
      cbn [URLRequest_validate]; rewrite Hm; cbn [as_urls option_map].
    + reflexivity.
    + now rewrite as_str_list_map.
Qed.

Lemma validation_accepts_exactly_witness :
  URLRequest_validate
    (JObject [(lit "urls", JArray [JNumber 1; JString one_url])]) = None /\
  URLRequest_validate
    (JObject [(lit "urls", JArray [JString one_url; JString one_url])])
  = Some {| urls := [one_url; one_url] |}.
Proof.
  split; [reflexivity|].
  apply (proj2 (validation_accepts_exactly
                  (JObject [(lit "urls",
                             JArray [JString one_url; JString one_url])])
                  [one_url; one_url])).
  eexists. split; [reflexivity|]. right. reflexivity.
Defined.

(** ** The calls of a successful query *)

Lemma lookups_length (todo : list annotation_obj) :
  length (lookups todo) = length (filter cites_file todo).
Proof.
  unfold lookups; induction todo as [|a rest IH]; [reflexivity|].
  cbn [flat_map filter]. unfold cites_file at 1.
  destruct (file_citation a); cbn [app length]; now rewrite IH.
Qed.

(** X18.  A query that returns an answer has made, after fetching the
    first message, one file lookup for every annotation with a
    [file_citation], in the order of the annotations, and no other call: a
    file that is cited by several annotations is looked up once for each of
    them. *)
Theorem one_lookup_per_citation (w : world) (question : str)
    (assistant : assistant_obj) (vector_store : vector_store_obj)
    (h h1 h2 : list call) (message_content : text_obj) (text : str) :
  first_answer w question assistant h = (inr message_content, h1) ->
  execute_rag_pipeline w question assistant vector_store h
  = (inr text, h2) ->
  h2 = h1 ++ lookups (annotations message_content) /\
  length (lookups (annotations message_content))
  = length (filter cites_file (annotations message_content)).
Proof.
  intros H Hrun.
  destruct (execute_rag_pipeline_inv _ _ _ _ _ _ _ _ _ H Hrun)
    as (names & _ & _ & _ & ->).
  split; [reflexivity|apply lookups_length].
Qed.

(** Two annotations that cite the same file. *)
Definition same_file_twice : text_obj :=
  {| value := lit "Alpha (a) beta (b).";
     annotations :=
       [{| text := lit "(a)";
           file_citation := Some {| file_id := lit "f1" |} |};
        {| text := lit "(b)";
           file_citation := Some {| file_id := lit "f1" |} |}] |}.

Lemma one_lookup_per_citation_witness :
  demo_run ++ [files_retrieve (lit "f1"); files_retrieve (lit "f1")]
  = demo_run ++ lookups (annotations same_file_twice) /\
  length (lookups (annotations same_file_twice)) = 2.
Proof.
  exact (one_lookup_per_citation
           (stand_in demo_web never_down (inbox_of same_file_twice))
           asked demo_assistant demo_store [] demo_run
           (demo_run ++ [files_retrieve (lit "f1"); files_retrieve (lit "f1")])
           same_file_twice
           (lit "Alpha [0] beta [1]." ++ [LF; LF]
              ++ lit "[0] f1.md" ++ [LF] ++ lit "[1] f1.md")
           eq_refl eq_refl).
Defined.

(** ** A thread without tool resources *)

(** X19.  When the thread that was created has no [tool_resources], the
    pipeline raises the attribute error of reading [file_search] from
    [None]: creating the thread is its only call, no run is started and no
    answer is returned. *)
Theorem pipeline_needs_tool_resources (w : world) (question : str)
    (assistant : assistant_obj) (vector_store : vector_store_obj)
    (h : list call) (thread : thread_obj) :
  w h (threads_create (lit "user") question) = inr thread ->
  tool_resources thread = None ->
  execute_rag_pipeline w question assistant vector_store h
  = (inl (Exception
            (lit "'NoneType' object has no attribute 'file_search'")),
     h ++ [threads_create (lit "user") question]).
Proof.
  intros Ht Hres. unfold execute_rag_pipeline.
  rewrite (bind_ext_ok _ _ _ _ _ Ht).
  unfold file_search_of at 1. rewrite Hres. reflexivity.
Qed.

(** The world [w] with threads that come without [tool_resources]. *)
Definition bare_threads (w : world) : world :=
  fun history c =>
    match c as c0 return exn + reply_of c0 with
    | threads_create role content =>
        match w history (threads_create role content) with
        | inr thread =>
            inr {| thread_id := thread_id thread; tool_resources := None |}
        | inl e => inl e
        end
    | c0 => w history c0
    end.

Lemma pipeline_needs_tool_resources_witness :
  execute_rag_pipeline
    (bare_threads (stand_in demo_web never_down (inbox_of plain_answer)))
    asked demo_assistant demo_store []
  = (inl (Exception
            (lit "'NoneType' object has no attribute 'file_search'")),
     [threads_create (lit "user") asked]).
Proof.
  exact (pipeline_needs_tool_resources
           (bare_threads (stand_in demo_web never_down (inbox_of plain_answer)))
           asked demo_assistant demo_store []
           {| thread_id := lit "thread_0"; tool_resources := None |}
           eq_refl eq_refl).
Defined.
